(** * UpsetPlot: the intersection-data model, its parser and the chart

    A shallow embedding of the class [UpsetMatrixData] and the function
    [parseUpsetMatrix] of [src/components/Home/Home.tsx], and of the class
    [UpsetPlot] ([render], [updateHighlighting] and the pointer handlers) that
    [src/components/UpsetPlot/UpsetPlotWrapper.tsx] draws with.

    JavaScript values are modelled as the language defines them: a string is
    the sequence of its UTF-16 code units, a number is an IEEE 754 binary64
    float (the kernel's primitive [float]), a [Set] is a duplicate-free
    sequence in insertion order, an array is a list. A method takes the object
    as its first argument [this] and returns the object it leaves behind. What
    the d3 library and the browser compute (the linear scale, the measured
    length of a text) is a parameter of the chart. *)

From Stdlib Require Import ZArith NArith List Bool Floats Lia String Ascii.

From stdpp Require Import base list gmap sets.

Set Warnings "-inexact-float,-clear-no-such-hyp".

(** * The embedding *)

(** ** The JavaScript runtime functions the program calls *)

Module JS.

(** A string: its UTF-16 code units. *)
Abbreviation jsstring := (list N).

(** A string literal of the source, for ASCII text. *)
Definition js (s : string) : jsstring :=
  N_of_ascii <$> list_ascii_of_string s.

Definition TAB : N := 9.

Definition LF : N := 10.

Definition HASH : N := 35.

Definition COMMA : N := 44.

Definition PLUS : N := 43.

Definition MINUS : N := 45.

(** [WhiteSpace] and [LineTerminator] of ECMA-262, the code units that
    [String.prototype.trim] and [parseInt] strip. *)
Definition isWhiteSpace (c : N) : bool :=
  ((9 <=? c) && (c <=? 13) || (c =? 32) || (c =? 160) || (c =? 5760)
   || (8192 <=? c) && (c <=? 8202) || (c =? 8232) || (c =? 8233)
   || (c =? 8239) || (c =? 8287) || (c =? 12288) || (c =? 65279))%N.

Fixpoint trimStart (s : jsstring) : jsstring :=
  match s with
  | c :: rest => if isWhiteSpace c then trimStart rest else s
  | [] => []
  end.

Definition trimEnd (s : jsstring) : jsstring :=
  reverse (trimStart (reverse s)).

Definition trim (s : jsstring) : jsstring := trimEnd (trimStart s).

(** [s.split(sep)] for a separator of one code unit: the pieces between the
    separators, in order; never an empty array. *)
Fixpoint split (sep : N) (s : jsstring) : list jsstring :=
  match s with
  | [] => [[]]
  | c :: rest =>
      if (c =? sep)%N then [] :: split sep rest
      else match split sep rest with
           | piece :: pieces => (c :: piece) :: pieces
           | [] => [[c]]
           end
  end.

(** [s.startsWith(c)] for a search string of one code unit. *)
Definition startsWith (s : jsstring) (c : N) : bool :=
  match s with
  | c0 :: _ => (c0 =? c)%N
  | [] => false
  end.

(** [array.includes(x)] on an array of strings. *)
Definition includes (l : list jsstring) (x : jsstring) : bool :=
  bool_decide (x ∈ l).

(** *** Numbers *)

(** The number value of a mathematical integer: the nearest binary64 float,
    ties to even, infinite beyond the range. *)
Definition Number_of_Z (z : Z) : float :=
  SF2Prim (binary_normalize prec emax z 0 false).

Definition Number_of_nat (n : nat) : float := Number_of_Z (Z.of_nat n).

Definition isNaN (x : float) : bool := is_nan x.

Definition is_pos_zero (x : float) : bool := is_zero x && negb (get_sign x).

Definition is_neg_zero (x : float) : bool := is_zero x && get_sign x.

(** [Math.max(...args)]: NaN when an argument is NaN, the largest argument
    otherwise ([-Infinity] for none), [+0] counted above [-0]. *)
Fixpoint Math_max_from (highest : float) (args : list float) : float :=
  match args with
  | [] => highest
  | number :: rest =>
      if is_nan number then nan
      else
        let highest :=
          if is_pos_zero number && is_neg_zero highest then number else highest in
        let highest := if (highest <? number)%float then number else highest in
        Math_max_from highest rest
  end.

Definition Math_max (args : list float) : float :=
  Math_max_from neg_infinity args.

(** [Math.min(...args)], the mirror image. *)
Fixpoint Math_min_from (lowest : float) (args : list float) : float :=
  match args with
  | [] => lowest
  | number :: rest =>
      if is_nan number then nan
      else
        let lowest :=
          if is_neg_zero number && is_pos_zero lowest then number else lowest in
        let lowest := if (number <? lowest)%float then number else lowest in
        Math_min_from lowest rest
  end.

Definition Math_min (args : list float) : float :=
  Math_min_from infinity args.

(** [Math.floor]: a float of exponent [e >= 0] is an integer already; below
    that the value is [m * 2^e] with [|m| < 2^53], and the shift rounds
    towards minus infinity. *)
Definition Math_floor (x : float) : float :=
  match Prim2SF x with
  | S754_finite s m e =>
      if (0 <=? e)%Z then x
      else Number_of_Z (Z.shiftl (if s then Zneg m else Zpos m) e)
  | _ => x
  end.

Definition Math_ceil (x : float) : float := (- Math_floor (- x))%float.

(** The index a number denotes in [substring]: [ToIntegerOrInfinity]
    (NaN is 0, the fraction is dropped) clamped to [0 .. len]. *)
Definition clampIndex (len : nat) (x : float) : nat :=
  match Prim2SF x with
  | S754_nan | S754_zero _ => 0
  | S754_infinity s => if s then 0 else len
  | S754_finite s m e =>
      if s then 0 else Z.to_nat (Z.min (Z.of_nat len) (Z.shiftl (Zpos m) e))
  end.

(** [s.substring(start, end)]. *)
Definition substring (s : jsstring) (start end_ : float) : jsstring :=
  let intStart := clampIndex (length s) start in
  let intEnd := clampIndex (length s) end_ in
  let from := Nat.min intStart intEnd in
  let to := Nat.max intStart intEnd in
  take (to - from) (drop from s).

(** *** parseInt *)

Definition digitValue (c : N) : option Z :=
  if ((48 <=? c) && (c <=? 57))%N then Some (Z.of_N c - 48)%Z else None.

(** The longest prefix of decimal digits, most significant first. *)
Fixpoint digitPrefix (s : jsstring) : list Z :=
  match s with
  | c :: rest =>
      match digitValue c with
      | Some d => d :: digitPrefix rest
      | None => []
      end
  | [] => []
  end.

Definition mathInt (digits : list Z) : Z :=
  foldl (fun acc d => (10 * acc + d)%Z) 0%Z digits.

(** [parseInt(string, 10)]: leading white space is skipped, an optional sign
    is read, then the longest run of decimal digits; NaN when that run is
    empty, [-0] for a negative zero. *)
Definition parseInt10 (string : jsstring) : float :=
  let S_ := trimStart string in
  let sign := if startsWith S_ MINUS then (-1)%Z else 1%Z in
  let S_ := if startsWith S_ PLUS || startsWith S_ MINUS then drop 1 S_ else S_ in
  let Z_ := digitPrefix S_ in
  match Z_ with
  | [] => nan
  | _ =>
      if (mathInt Z_ =? 0)%Z then
        (if (sign =? -1)%Z then PrimFloat.neg_zero else PrimFloat.zero)
      else Number_of_Z (sign * mathInt Z_)
  end.

End JS.

Import JS.

(** ** Home.tsx: the data model *)

Record Intersection := { set : jsstring; value : float }.

(** [class UpsetMatrixData]: the private fields [sets] (a [Set<string>], kept
    in insertion order as [Array.from] lists it) and [intersections]. *)
Record UpsetMatrixData := {
  sets : list jsstring;
  intersections : list Intersection
}.

(** [Set.prototype.add]. *)
Definition Set_add (s : list jsstring) (x : jsstring) : list jsstring :=
  if bool_decide (x ∈ s) then s else s ++ [x].

(** [new UpsetMatrixData()]. *)
Definition new_UpsetMatrixData : UpsetMatrixData :=
  {| sets := []; intersections := [] |}.

Definition getSets (this : UpsetMatrixData) : list jsstring := sets this.

Definition getIntersections (this : UpsetMatrixData) : list Intersection :=
  intersections this.

Definition addSet (this : UpsetMatrixData) (name : jsstring) : UpsetMatrixData :=
  {| sets := Set_add (sets this) name; intersections := intersections this |}.

Definition addIntersection (this : UpsetMatrixData) (set_ : jsstring) (value_ : float)
  : UpsetMatrixData :=
  let this :=
    {| sets := sets this;
       intersections := intersections this ++ [ {| set := set_; value := value_ |} ] |} in
  let setNames := split COMMA set_ in
  foldl addSet this setNames.

Definition getMaxIntersectionValue (this : UpsetMatrixData) : float :=
  if (length (intersections this) =? 0)%nat then 0%float
  else Math_max (value <$> intersections this).

Definition isSetInIntersection (this : UpsetMatrixData) (setName intersection : jsstring)
  : bool :=
  let sets := split COMMA intersection in
  includes sets setName.

(** [interface UpsetMatrixFile]; [status] is 1 (valid), 0 (parsing) or -1 (error). *)
Record UpsetMatrixFile := {
  data : UpsetMatrixData;
  fileName : jsstring;
  status : Z
}.

(** ** Home.tsx: parseUpsetMatrix *)

(** A thrown [Error] with its message. *)
Inductive Error := Error_ (message : jsstring).

(** How a promise settles. *)
Inductive Settled (A : Type) :=
| Resolved (v : A)
| Rejected (reason : Error).

Arguments Resolved {A} v.

Arguments Rejected {A} reason.

(** What the [FileReader] reports for [readAsText]: [onload] with the text,
    or [onerror]. *)
Inductive ReadEvent :=
| onload (result : jsstring)
| onerror.

(** The state the [forEach] callback works on: the model being filled and the
    lines passed to [console.warn]. *)
Record ParseState := {
  ps_data : UpsetMatrixData;
  ps_warned : list jsstring
}.

(** The body of the [lines.forEach] callback: [inl] is a thrown error. *)
Definition parseLine (st : ParseState) (line : jsstring) : Error + ParseState :=
  if bool_decide (trim line = []) then inr st
  else if startsWith line HASH then inr st
  else
    let fields := split TAB line in
    if (length fields =? 2)%nat then
      let setName := trim (nth 0 fields []) in
      let value := parseInt10 (trim (nth 1 fields [])) in
      if negb (isNaN value) then
        inr {| ps_data := addIntersection (ps_data st) setName value;
               ps_warned := ps_warned st |}
      else
        inr {| ps_data := ps_data st; ps_warned := ps_warned st ++ [line] |}
    else inl (Error_ (js "Invalid line format: " ++ line)).

(** [lines.forEach(callback)]: a throw leaves the loop. *)
Fixpoint forEach (lines : list jsstring) (st : ParseState) : Error + ParseState :=
  match lines with
  | [] => inr st
  | line :: rest =>
      match parseLine st line with
      | inr st' => forEach rest st'
      | inl e => inl e
      end
  end.

Definition FormatError : Error := Error_ (js "Failed to parse UpsetMatrix file").

Definition FileReadError : Error := Error_ (js "Failed to read the file").

(** The [try] block of [reader.onload], from the split into lines to the end
    of the loop. *)
Definition parseText (result : jsstring) : Error + ParseState :=
  forEach (split LF result)
          {| ps_data := new_UpsetMatrixData; ps_warned := [] |}.

(** [parseUpsetMatrix(file)], by what the reader reports for the file. *)
Definition parseUpsetMatrix (name : jsstring) (ev : ReadEvent)
  : Settled UpsetMatrixFile :=
  match ev with
  | onload result =>
      match parseText result with
      | inr st => Resolved {| data := ps_data st; fileName := name; status := 1 |}
      | inl _ => Rejected FormatError
      end
  | onerror => Rejected FileReadError
  end.

(** [handleUpsetMatrixFileUpload] of the [Home] component: the next value of
    the state [upsetMatrixFile] once the promise has settled. *)
Definition handleUpsetMatrixFileUpload
    (upsetMatrixFile : UpsetMatrixFile) (settled : Settled UpsetMatrixFile)
  : UpsetMatrixFile :=
  match settled with
  | Resolved upsetMatrix_data =>
      {| data := data upsetMatrix_data; fileName := fileName upsetMatrix_data;
         status := 1 |}
  | Rejected _ =>
      {| data := data upsetMatrixFile; fileName := fileName upsetMatrixFile;
         status := -1 |}
  end.

(** ** The class UpsetPlot: the chart *)

Module Dimensions.

Record t := { width : float; height : float; x : float; y : float; fontSize : float }.

End Dimensions.

Module Margin.

Record t := { top : float; right : float; bottom : float; left : float }.

End Margin.

(** The field [componentRatios]; [render] reads [dot.width] and [spacer]. *)
Module componentRatios.

Definition dot_width : float := 0.5.

Definition dot_height : float := 0.9.

Definition bar_width : float := 0.45.

Definition bar_height : float := 0.9.

Definition names_width : float := 0.5.

Definition names_height : float := 0.1.

Definition spacer : float := 0.025.

End componentRatios.

(** The datum bound to a grid cell (a rect or a circle of class [gridCell]):
    [{ set, intersection, index }]. *)
Record CellDatum := {
  cell_set : jsstring;
  cell_intersection : Intersection;
  cell_index : nat
}.

Record GridRect := {
  rect_datum : CellDatum;
  rect_x : float;
  rect_y : float;
  rect_width : float;
  rect_height : float;
  rect_fill : string
}.

Record GridCircle := {
  circle_datum : CellDatum;
  circle_cx : float;
  circle_cy : float;
  circle_r : float;
  circle_fill : string
}.

(** The children of the container group, one constructor per element class
    that [render] appends. Each carries the datum d3 binds to it and the
    attributes and styles that depend on the layout or on the interaction
    state; constant styles (strokes, the transparent fill of the event
    surface) are left out. *)
Inductive Element :=
| rect_frame (x y width height : float)
| text_setLabel (d : jsstring) (x y : float) (text_anchor : string)
    (font_size : float) (rotate : option (float * float * float))
| g_gridRow (d : Intersection) (translate_y : float)
    (rects : list GridRect) (circles : list GridCircle)
| rect_valueBar (d : Intersection) (x y width height : float) (fill : string)
| text_barLabel (d : Intersection) (x y font_size : float) (text : float)
    (flipped : bool)
| g_x_axis (translate_y : float) (domain range : float * float) (ticks : float)
| text_intersectionLabel (d : Intersection) (x y font_size : float)
    (text title : jsstring)
| rect_eventRect (d : Intersection) (x y width height : float).

(** The group [render] appends to the svg, with its translation. *)
Record Container := {
  translate_x : float;
  translate_y : float;
  children : list Element
}.

(** A registered click callback, by identity: what it does is outside the
    component. *)
Inductive Callback := callback (id : nat).

(** [class UpsetPlot]. [svg] holds what is drawn below the svg node: nothing,
    or the container group. The tooltip, which no drawing depends on, is not
    modelled. *)
Record UpsetPlot := {
  svg : option Container;
  dimensions : Dimensions.t;
  upsetMatrix : UpsetMatrixData;
  selectedIntersections : list jsstring;
  hoveredIntersection : option jsstring;
  onIntersectionClick : option Callback
}.

(** [this.hoveredIntersection === key]. *)
Definition hovered_is (hovered : option jsstring) (key : jsstring) : bool :=
  bool_decide (hovered = Some key).

(** The local constants of [render] that fix the layout. *)
Record Geometry := {
  margin : Margin.t;
  width : float;
  height : float;
  maxLabelLength : float;
  labelFontSize : float;
  label_height : float;
  dot_height : float;
  dot_width : float;
  spacer_width : float;
  bar_x : float;
  bar_y : float;
  bar_height : float;
  bar_width : float;
  cell_width : float;
  cell_height : float;
  maxValue : float
}.

(** [d3.max(sets, d => d.length) || 0]. *)
Definition d3_max_length (sets : list jsstring) : float :=
  Number_of_nat (max_list (length <$> sets)).

Section Layout.

Local Open Scope float_scope.

(** Lines 250-287 of [render]: margins, section sizes and cell sizes. *)
Definition geometry (this : UpsetPlot) : Geometry :=
  let sets := getSets (upsetMatrix this) in
  let intersections := getIntersections (upsetMatrix this) in
  let margin := {|
    Margin.top := 30;
    Margin.right := Math_max [60; Dimensions.width (dimensions this) * 0.1];
    Margin.bottom := 10;
    Margin.left := Math_max [70; Dimensions.width (dimensions this) * 0.15]
  |} in
  let width := Dimensions.width (dimensions this) - Margin.left margin - Margin.right margin in
  let height := Dimensions.height (dimensions this) - Margin.top margin - Margin.bottom margin in
  let maxLabelLength := d3_max_length sets in
  let labelFontSize :=
    Math_min [12; Dimensions.fontSize (dimensions this);
              Math_max [8; 14 - maxLabelLength / 4]] in
  let label_height := Math_max [labelFontSize * 1.5; height * 0.08] in
  let dot_height := height - label_height in
  let dot_width := width * componentRatios.dot_width in
  let spacer_width := width * componentRatios.spacer in
  let bar_x := dot_width + spacer_width in
  let bar_y := label_height in
  let bar_height := dot_height in
  let bar_width := width - dot_width - spacer_width - 40 in
  let cell_width := dot_width / Number_of_nat (length sets) in
  let cell_height := Math_min [30; dot_height / Number_of_nat (length intersections)] in
  let maxValue := getMaxIntersectionValue (upsetMatrix this) in
  {| margin := margin; width := width; height := height;
     maxLabelLength := maxLabelLength; labelFontSize := labelFontSize;
     label_height := label_height; dot_height := dot_height; dot_width := dot_width;
     spacer_width := spacer_width; bar_x := bar_x; bar_y := bar_y;
     bar_height := bar_height; bar_width := bar_width;
     cell_width := cell_width; cell_height := cell_height; maxValue := maxValue |}.

(** The text of an intersection label (lines 444-449). *)
Definition intersectionLabelText (margin_left labelFontSize : float) (d : Intersection)
  : jsstring :=
  let maxDisplayLength := Math_floor (margin_left / (labelFontSize * 0.6)) - 2 in
  if maxDisplayLength <? Number_of_nat (length (set d))
  then substring (set d) 0 (maxDisplayLength - 3) ++ js "..."
  else set d.

End Layout.

Section Chart.

Local Open Scope string_scope.

Local Open Scope list_scope.

Local Open Scope float_scope.

(** [d3.scaleLinear().domain(domain).range(range)], of the d3 library. *)
Variable scaleLinear : float * float -> float * float -> float -> float.

(** [getComputedTextLength()] of a bar label showing [text] at [font_size]:
    measured by the browser. *)
Variable getComputedTextLength : float -> float -> float.

(** Indexing: the [(d, i)] pairs d3 passes to an attribute function. *)
Definition indexed {A} (l : list A) : list (nat * A) := imap (fun i d => (i, d)) l.

(** [render], from the emptiness test to the last element appended. *)
Definition render_scene (this : UpsetPlot) : option Container :=
  let sets := getSets (upsetMatrix this) in
  let intersections := getIntersections (upsetMatrix this) in
  if (length sets =? 0)%nat || (length intersections =? 0)%nat then None
  else
    let g := geometry this in
    let barScale := scaleLinear (0, maxValue g) (0, bar_width g) in
    let small_font := Math_min [10; labelFontSize g * 0.8] in
    let frame :=
      [ rect_frame 0 (label_height g) (dot_width g) (dot_height g) ] in
    let rotated := (cell_width g <? 20) && (5 <? length sets)%nat in
    let setLabels :=
      (fun '(i, d) =>
         let cx := Number_of_nat i * cell_width g + cell_width g / 2 in
         if rotated
         then text_setLabel d cx (label_height g - 2) "end" (labelFontSize g)
                (Some (-45, cx, label_height g - 5))
         else text_setLabel d cx (label_height g - 5) "middle" (labelFontSize g) None)
      <$> indexed sets in
    let gridGroups :=
      (fun '(i, d) =>
         let cells :=
           (fun '(j, set_) =>
              (j, {| cell_set := set_; cell_intersection := d; cell_index := i |}))
           <$> indexed sets in
         g_gridRow d (label_height g + Number_of_nat i * cell_height g)
           ((fun '(j, d) =>
               {| rect_datum := d;
                  rect_x := Number_of_nat j * cell_width g;
                  rect_y := 0;
                  rect_width := cell_width g;
                  rect_height := cell_height g;
                  rect_fill :=
                    let isSelected :=
                      includes (selectedIntersections this) (set (cell_intersection d)) in
                    let isHovered :=
                      hovered_is (hoveredIntersection this) (set (cell_intersection d)) in
                    if isSelected then "#FF9806"
                    else if isHovered then "#FFBD62" else "white" |}) <$> cells)
           ((fun '(j, d) =>
               {| circle_datum := d;
                  circle_cx := Number_of_nat j * cell_width g + cell_width g / 2;
                  circle_cy := cell_height g / 2;
                  circle_r := Math_min [cell_height g; cell_width g] / 3;
                  circle_fill :=
                    let isSelected :=
                      includes (selectedIntersections this) (set (cell_intersection d)) in
                    let isHovered :=
                      hovered_is (hoveredIntersection this) (set (cell_intersection d)) in
                    let isIncluded :=
                      isSetInIntersection (upsetMatrix this) (cell_set d)
                        (set (cell_intersection d)) in
                    if isSelected
                    then (if isIncluded then "#FF6F00" else "#807A79")
                    else (if isIncluded
                          then (if isHovered then "#FF9C46" else "#030202")
                          else "#807A79") |}) <$> cells))
      <$> indexed intersections in
    let valueBars :=
      (fun '(i, d) =>
         rect_valueBar d (bar_x g)
           (bar_y g + Number_of_nat i * cell_height g + cell_height g * 0.1)
           (barScale (value d)) (cell_height g * 0.8)
           (let isSelected := includes (selectedIntersections this) (set d) in
            let isHovered := hovered_is (hoveredIntersection this) (set d) in
            if isSelected then "#FF6F00"
            else if isHovered then "#FF9C46" else "#030202"))
      <$> indexed intersections in
    let barLabels :=
      (fun '(i, d) =>
         let y := bar_y g + Number_of_nat i * cell_height g + cell_height g / 2 in
         let textWidth := getComputedTextLength (value d) small_font in
         if width g <? bar_x g + barScale (value d) + textWidth + 10
         then text_barLabel d (bar_x g + barScale (value d) - textWidth - 5) y
                small_font (value d) true
         else text_barLabel d (bar_x g + barScale (value d) + 5) y
                small_font (value d) false)
      <$> indexed intersections in
    let xAxis :=
      [ g_x_axis (bar_y g) (0, maxValue g) (bar_x g, bar_x g + bar_width g)
          (Math_min [5; Math_ceil (maxValue g)]) ] in
    let intersectionLabels :=
      (fun '(i, d) =>
         text_intersectionLabel d (-5)
           (label_height g + Number_of_nat i * cell_height g + cell_height g / 2)
           small_font
           (intersectionLabelText (Margin.left (margin g)) (labelFontSize g) d)
           (set d))
      <$> indexed intersections in
    let eventRects :=
      (fun '(i, d) =>
         rect_eventRect d 0 (label_height g + Number_of_nat i * cell_height g)
           (width g) (cell_height g))
      <$> indexed intersections in
    Some {| translate_x := Margin.left (margin g);
            translate_y := Margin.top (margin g);
            children := frame ++ setLabels ++ gridGroups ++ valueBars ++ barLabels
                        ++ xAxis ++ intersectionLabels ++ eventRects |}.

(** [this.svg.selectAll('rect.gridCell').style('fill', f)]: the rects of class
    [gridCell] are the backgrounds inside the row groups. *)
Definition style_fill_rect_gridCell (f : CellDatum -> string) (e : Element) : Element :=
  match e with
  | g_gridRow d ty rects circles =>
      g_gridRow d ty
        ((fun r => {| rect_datum := rect_datum r; rect_x := rect_x r; rect_y := rect_y r;
                      rect_width := rect_width r; rect_height := rect_height r;
                      rect_fill := f (rect_datum r) |}) <$> rects)
        circles
  | _ => e
  end.

(** [this.svg.selectAll('circle.gridCell').style('fill', f)]. *)
Definition style_fill_circle_gridCell (f : CellDatum -> string) (e : Element) : Element :=
  match e with
  | g_gridRow d ty rects circles =>
      g_gridRow d ty rects
        ((fun c => {| circle_datum := circle_datum c; circle_cx := circle_cx c;
                      circle_cy := circle_cy c; circle_r := circle_r c;
                      circle_fill := f (circle_datum c) |}) <$> circles)
  | _ => e
  end.

(** [this.svg.selectAll('rect.valueBar').style('fill', f)]. *)
Definition style_fill_rect_valueBar (f : Intersection -> string) (e : Element) : Element :=
  match e with
  | rect_valueBar d x y w h _ => rect_valueBar d x y w h (f d)
  | _ => e
  end.

(** A selection below the svg node applies to every element drawn. *)
Definition selectAll (restyle : Element -> Element) (svg : option Container)
  : option Container :=
  (fun c => {| translate_x := translate_x c; translate_y := translate_y c;
               children := restyle <$> children c |}) <$> svg.

Definition with_svg (this : UpsetPlot) (svg_ : option Container) : UpsetPlot :=
  {| svg := svg_; dimensions := dimensions this; upsetMatrix := upsetMatrix this;
     selectedIntersections := selectedIntersections this;
     hoveredIntersection := hoveredIntersection this;
     onIntersectionClick := onIntersectionClick this |}.

Definition with_selectedIntersections (this : UpsetPlot) (selected : list jsstring)
  : UpsetPlot :=
  {| svg := svg this; dimensions := dimensions this; upsetMatrix := upsetMatrix this;
     selectedIntersections := selected;
     hoveredIntersection := hoveredIntersection this;
     onIntersectionClick := onIntersectionClick this |}.

Definition with_hoveredIntersection (this : UpsetPlot) (hovered : option jsstring)
  : UpsetPlot :=
  {| svg := svg this; dimensions := dimensions this; upsetMatrix := upsetMatrix this;
     selectedIntersections := selectedIntersections this;
     hoveredIntersection := hovered;
     onIntersectionClick := onIntersectionClick this |}.

(** [render()]: the svg is cleared, then drawn again unless the model is empty. *)
Definition render (this : UpsetPlot) : UpsetPlot :=
  with_svg this (render_scene this).

(** [updateHighlighting()]: three restyling passes over what is drawn. *)
Definition updateHighlighting (this : UpsetPlot) : UpsetPlot :=
  let svg1 :=
    selectAll (style_fill_rect_gridCell (fun d =>
      let isSelected :=
        includes (selectedIntersections this) (set (cell_intersection d)) in
      let isHovered :=
        hovered_is (hoveredIntersection this) (set (cell_intersection d)) in
      if isSelected then "#FF9806" else if isHovered then "#FFBD62" else "white"))
      (svg this) in
  let svg2 :=
    selectAll (style_fill_circle_gridCell (fun d =>
      let isSelected :=
        includes (selectedIntersections this) (set (cell_intersection d)) in
      let isHovered :=
        hovered_is (hoveredIntersection this) (set (cell_intersection d)) in
      let isIncluded :=
        isSetInIntersection (upsetMatrix this) (cell_set d) (set (cell_intersection d)) in
      if isSelected
      then (if isIncluded then "#FF6F00" else "#807A79")
      else (if isIncluded
            then (if isHovered then "#FF9C46" else "#030202")
            else "#807A79")))
      svg1 in
  let svg3 :=
    selectAll (style_fill_rect_valueBar (fun d =>
      let isSelected := includes (selectedIntersections this) (set d) in
      let isHovered := hovered_is (hoveredIntersection this) (set d) in
      if isSelected then "#FF6F00" else if isHovered then "#FF9C46" else "#030202"))
      svg2 in
  with_svg this svg3.

(** The constructor, on an svg node with nothing drawn. *)
Definition new_UpsetPlot (dimensions_ : Dimensions.t) (upsetMatrix_ : UpsetMatrixData)
  : UpsetPlot :=
  {| svg := None; dimensions := dimensions_; upsetMatrix := upsetMatrix_;
     selectedIntersections := []; hoveredIntersection := None;
     onIntersectionClick := None |}.

Definition setSelectedIntersections (this : UpsetPlot) (intersections_ : list jsstring)
  : UpsetPlot :=
  render (with_selectedIntersections this intersections_).

Definition getSelectedIntersections (this : UpsetPlot) : list jsstring :=
  selectedIntersections this.

Definition setOnIntersectionClick (this : UpsetPlot) (cb : Callback) : UpsetPlot :=
  {| svg := svg this; dimensions := dimensions this; upsetMatrix := upsetMatrix this;
     selectedIntersections := selectedIntersections this;
     hoveredIntersection := hoveredIntersection this;
     onIntersectionClick := Some cb |}.

Definition plot (this : UpsetPlot) : UpsetPlot := render this.

(** The [click] handler of the event surface of row [d]: the new state, and
    the external callback invoked, if one is registered. *)
Definition click (this : UpsetPlot) (d : Intersection)
  : UpsetPlot * option (Callback * jsstring) :=
  match onIntersectionClick this with
  | Some cb => (this, Some (cb, set d))
  | None =>
      let selected :=
        if includes (selectedIntersections this) (set d)
        then filter (fun s => s <> set d) (selectedIntersections this)
        else selectedIntersections this ++ [set d] in
      (render (with_selectedIntersections this selected), None)
  end.

(** The [mouseover] handler, without the tooltip. *)
Definition mouseover (this : UpsetPlot) (d : Intersection) : UpsetPlot :=
  let previousHover := hoveredIntersection this in
  let this := with_hoveredIntersection this (Some (set d)) in
  if bool_decide (previousHover <> hoveredIntersection this)
  then updateHighlighting this
  else this.

(** The [mouseleave] handler, without the tooltip. *)
Definition mouseleave (this : UpsetPlot) : UpsetPlot :=
  updateHighlighting (with_hoveredIntersection this None).

End Chart.

(** ** Instances for the examples *)

(** A linear scale in the manner of d3: [domain] is mapped onto [range]
    affinely, a degenerate domain onto the middle of the range. *)
Definition linearScale (domain range : float * float) (x : float) : float :=
  let b := (domain.2 - domain.1)%float in
  let t := if is_nan b || is_zero b then (if is_nan b then nan else 0.5%float)
           else ((x - domain.1) / b)%float in
  (range.1 * (1 - t) + range.2 * t)%float.

(** A text measure: six pixels for a label, whatever its text. *)
Definition sixPixels (text font_size : float) : float := 6%float.

(** A record of the input format: label, tab, count, line feed. *)
Definition line_ (label : string) (count : string) : jsstring :=
  js label ++ [TAB] ++ js count ++ [LF].

Definition example_model : UpsetMatrixData :=
  {| sets := [js "SetA"; js "SetB"; js "SetC"; js "SetD"];
     intersections := [ {| set := js "SetA,SetB,SetC,SetD"; value := 45 |};
                        {| set := js "SetA"; value := 7 |} ] |}.

(** The chart of [example_model] at the default size of the page, 500 by 500
    with font size 16. *)
Definition example_plot : UpsetPlot :=
  new_UpsetPlot
    {| Dimensions.width := 500; Dimensions.height := 500;
       Dimensions.x := 0; Dimensions.y := 0; Dimensions.fontSize := 16 |}
    example_model.

(** The same chart in an svg of 100 by 30: less than the margins. *)
Definition narrow_plot : UpsetPlot :=
  new_UpsetPlot
    {| Dimensions.width := 100; Dimensions.height := 30;
       Dimensions.x := 0; Dimensions.y := 0; Dimensions.fontSize := 16 |}
    example_model.

(** * The vocabulary of the statements *)

(** A line that the loop neither skips nor accepts: not blank after trimming,
    not starting with [#], and not made of exactly two tab-separated fields. *)
Definition malformed (line : jsstring) : Prop :=
  trim line <> [] /\ startsWith line HASH = false /\ length (split TAB line) <> 2.

(** The model a run of the loop yields, or the error it throws: what the
    promise is settled with. The lines warned about do not reach it. *)
Definition outcome (r : Error + ParseState) : Error + UpsetMatrixData :=
  match r with
  | inr st => inr (ps_data st)
  | inl e => inl e
  end.

(** An entry that comes from an accepted line of [lines]. *)
Definition accepted_from (lines : list jsstring) (i : Intersection) : Prop :=
  exists line f0 f1,
    line ∈ lines /\ split TAB line = [f0; f1]
    /\ set i = trim f0 /\ value i = parseInt10 (trim f1) /\ isNaN (value i) = false.

(** The model after a sequence of [addIntersection] calls on a new model. *)
Definition addIntersections (calls : list (jsstring * float)) : UpsetMatrixData :=
  foldl (fun this call => addIntersection this call.1 call.2) new_UpsetMatrixData calls.

(** The union of the comma-split components of the keys added. *)
Definition components (calls : list (jsstring * float)) : gset jsstring :=
  ⋃ ((fun call => list_to_set (split COMMA call.1)) <$> calls).

(** The text and the title of the elements of class [intersectionLabel], in
    document order. *)
Definition intersectionLabels (svg : option Container) : list (jsstring * jsstring) :=
  match svg with
  | Some c =>
      omap (fun e => match e with
                     | text_intersectionLabel _ _ _ _ text title => Some (text, title)
                     | _ => None
                     end) (children c)
  | None => []
  end.

(** [SFcompare] orders the numbers that are not NaN as their keys are ordered
    lexicographically: the class (infinite, finite or zero, with its sign),
    then the exponent and the mantissa, both negated for a negative number.
    The two zeros share a key. *)
Definition SFkey (x : spec_float) : Z * Z * Z :=
  match x with
  | S754_zero _ | S754_nan => (0, 0, 0)
  | S754_infinity s => (if s then -2 else 2, 0, 0)
  | S754_finite s m e => if s then (-1, - e, Zneg m) else (1, e, Zpos m)
  end%Z.

Definition Fkey (x : float) : Z * Z * Z := SFkey (Prim2SF x).

Definition lex3 (k1 k2 : Z * Z * Z) : comparison :=
  let '(a1, b1, c1) := k1 in
  let '(a2, b2, c2) := k2 in
  match (a1 ?= a2)%Z with
  | Eq => match (b1 ?= b2)%Z with Eq => (c1 ?= c2)%Z | r => r end
  | r => r
  end.

Definition key_le (k1 k2 : Z * Z * Z) : Prop :=
  (k1.1.1 < k2.1.1 \/
   (k1.1.1 = k2.1.1 /\ (k1.1.2 < k2.1.2 \/ (k1.1.2 = k2.1.2 /\ k1.2 <= k2.2))))%Z.

Definition key_lt (k1 k2 : Z * Z * Z) : Prop :=
  (k1.1.1 < k2.1.1 \/
   (k1.1.1 = k2.1.1 /\ (k1.1.2 < k2.1.2 \/ (k1.1.2 = k2.1.2 /\ k1.2 < k2.2))))%Z.

(** The element name and the class that [render] gives an element when it
    appends it, written as a selector; the frame has no class. *)
Definition selector (e : Element) : string :=
  match e with
  | rect_frame _ _ _ _ => "rect"
  | text_setLabel _ _ _ _ _ _ => "text.setLabel"
  | g_gridRow _ _ _ _ => "g.gridRow"
  | rect_valueBar _ _ _ _ _ _ => "rect.valueBar"
  | text_barLabel _ _ _ _ _ _ => "text.barLabel"
  | g_x_axis _ _ _ _ => "g.x-axis"
  | text_intersectionLabel _ _ _ _ _ _ => "text.intersectionLabel"
  | rect_eventRect _ _ _ _ _ => "rect.eventRect"
  end%string.

(** * The vocabulary of the further properties *)

(** A line the loop passes over: blank after trimming, or starting with [#]. *)
Definition skipped (line : jsstring) : bool :=
  bool_decide (trim line = []) || startsWith line HASH.

(** The call [addIntersection(setName, value)] that a line gives rise to, if
    it gives rise to one. *)
Definition entryOf (line : jsstring) : option (jsstring * float) :=
  if skipped line then None
  else match split TAB line with
       | [f0; f1] =>
           if isNaN (parseInt10 (trim f1)) then None
           else Some (trim f0, parseInt10 (trim f1))
       | _ => None
       end.

(** The calls a text gives rise to, in the order of its lines. *)
Definition entries (result : jsstring) : list (jsstring * float) :=
  omap entryOf (split LF result).

(** The number of tab characters of a line. *)
Definition tabs (line : jsstring) : nat :=
  length (filter (fun c => c = TAB) line).

Definition CR : N := 13.

(** The data of the set labels drawn, in document order. *)
Definition setLabelsOf (c : Container) : list jsstring :=
  omap (fun e => match e with
                 | text_setLabel d _ _ _ _ _ => Some d
                 | _ => None
                 end) (children c).

(** The datum and the vertical offset of the row groups drawn. *)
Definition rowsOf (c : Container) : list (Intersection * float) :=
  omap (fun e => match e with
                 | g_gridRow d ty _ _ => Some (d, ty)
                 | _ => None
                 end) (children c).

(** The data of the value bars drawn. *)
Definition barsOf (c : Container) : list Intersection :=
  omap (fun e => match e with
                 | rect_valueBar d _ _ _ _ _ => Some d
                 | _ => None
                 end) (children c).

(** The datum, vertical offset, width and height of the event surfaces. *)
Definition eventRectsOf (c : Container) : list (Intersection * float * float * float) :=
  omap (fun e => match e with
                 | rect_eventRect d _ y w h => Some (d, y, w, h)
                 | _ => None
                 end) (children c).

(** What reaches the chart after its construction: the pointer events that d3
    dispatches to the handlers of a row, and the calls of the public
    methods. *)
Inductive Event :=
| on_click (d : Intersection)
| on_mouseover (d : Intersection)
| on_mouseleave
| on_mousemove
| call_plot
| call_setSelectedIntersections (intersections_ : list jsstring)
| call_setOnIntersectionClick (cb : Callback).

Section Events.

Variable scaleLinear : float * float -> float * float -> float -> float.
Variable getComputedTextLength : float -> float -> float.

(** The chart after one event; [mousemove] moves the tooltip only. *)
Definition handle (this : UpsetPlot) (ev : Event) : UpsetPlot :=
  match ev with
  | on_click d => (click scaleLinear getComputedTextLength this d).1
  | on_mouseover d => mouseover this d
  | on_mouseleave => mouseleave this
  | on_mousemove => this
  | call_plot => plot scaleLinear getComputedTextLength this
  | call_setSelectedIntersections l =>
      setSelectedIntersections scaleLinear getComputedTextLength this l
  | call_setOnIntersectionClick cb => setOnIntersectionClick this cb
  end.

Definition handleAll (this : UpsetPlot) (evs : list Event) : UpsetPlot :=
  foldl handle this evs.

(** What is drawn is what a full render of the present state draws. *)
Definition upToDate (this : UpsetPlot) : Prop :=
  svg this = render_scene scaleLinear getComputedTextLength this.

End Events.

(** ** Instances for the further properties *)

(** A file of three records, one of them after a comment. *)
Definition example_text : jsstring :=
  line_ "SetA" "120" ++ js "# second" ++ [LF] ++ line_ "SetB" "150"
  ++ line_ "SetA,SetB" "45".

Definition example_file : UpsetMatrixFile :=
  {| data := {| sets := [js "SetA"; js "SetB"];
                intersections := [ {| set := js "SetA"; value := 120 |};
                                   {| set := js "SetB"; value := 150 |};
                                   {| set := js "SetA,SetB"; value := 45 |} ] |};
     fileName := js "m.tsv"; status := 1 |}.

(** * Proofs *)

(** ** The order of binary64 numbers *)

Ltac key_order := unfold key_le, key_lt in *; simpl in *; lia.

Lemma SFcompare_key (x y : spec_float) :
  x <> S754_nan -> y <> S754_nan -> SFcompare x y = Some (lex3 (SFkey x) (SFkey y)).
Proof.
  destruct x as [sx | sx | | sx mx ex], y as [sy | sy | | sy my ey];
    try congruence; intros _ _;
    try (destruct sx; try destruct sy; reflexivity).
  destruct sx, sy; try reflexivity; cbn [SFcompare SFkey lex3]; f_equal.
  rewrite Z.compare_opp, (Z.compare_antisym ex ey). simpl.
  destruct (ex ?= ey)%Z; reflexivity.
Qed.

Lemma SFcompare_nan_l (y : spec_float) : SFcompare S754_nan y = None.
Proof. by destruct y. Qed.

Lemma SFcompare_nan_r (x : spec_float) : SFcompare x S754_nan = None.
Proof. by destruct x. Qed.

Lemma SF_nan_dec (x : spec_float) : x = S754_nan \/ x <> S754_nan.
Proof. destruct x; (by left) || (by right). Qed.

Lemma lex3_le (k1 k2 : Z * Z * Z) : lex3 k1 k2 <> Gt <-> key_le k1 k2.
Proof.
  destruct k1 as [[a1 b1] c1], k2 as [[a2 b2] c2]. unfold lex3, key_le. simpl.
  destruct (Z.compare_spec a1 a2), (Z.compare_spec b1 b2), (Z.compare_spec c1 c2);
    split; try congruence; try lia.
Qed.

Lemma lex3_lt (k1 k2 : Z * Z * Z) : lex3 k1 k2 = Lt <-> key_lt k1 k2.
Proof.
  destruct k1 as [[a1 b1] c1], k2 as [[a2 b2] c2]. unfold lex3, key_lt. simpl.
  destruct (Z.compare_spec a1 a2), (Z.compare_spec b1 b2), (Z.compare_spec c1 c2);
    split; try congruence; try lia.
Qed.

Lemma is_nan_false_iff (x : float) : is_nan x = false <-> Prim2SF x <> S754_nan.
Proof.
  unfold is_nan. rewrite FloatAxioms.eqb_spec. unfold SFeqb. split.
  - intros H E. rewrite E in H. discriminate.
  - intros H. rewrite SFcompare_key by done.
    destruct (lex3 (SFkey (Prim2SF x)) (SFkey (Prim2SF x))) eqn:E; try done.
    + apply lex3_lt in E. key_order.
    + assert (lex3 (SFkey (Prim2SF x)) (SFkey (Prim2SF x)) <> Gt) as G
        by (apply lex3_le; key_order).
      done.
Qed.

Lemma leb_key (x y : float) :
  (x <=? y)%float = true <->
  is_nan x = false /\ is_nan y = false /\ key_le (Fkey x) (Fkey y).
Proof.
  rewrite FloatAxioms.leb_spec, !is_nan_false_iff. unfold SFleb, Fkey.
  destruct (SF_nan_dec (Prim2SF x)) as [-> | Hx].
  { rewrite SFcompare_nan_l. intuition congruence. }
  destruct (SF_nan_dec (Prim2SF y)) as [-> | Hy].
  { rewrite SFcompare_nan_r. intuition congruence. }
  rewrite SFcompare_key by done. rewrite <- lex3_le.
  destruct (lex3 _ _); intuition congruence.
Qed.

Lemma ltb_key (x y : float) :
  (x <? y)%float = true <->
  is_nan x = false /\ is_nan y = false /\ key_lt (Fkey x) (Fkey y).
Proof.
  rewrite FloatAxioms.ltb_spec, !is_nan_false_iff. unfold SFltb, Fkey.
  destruct (SF_nan_dec (Prim2SF x)) as [-> | Hx].
  { rewrite SFcompare_nan_l. intuition congruence. }
  destruct (SF_nan_dec (Prim2SF y)) as [-> | Hy].
  { rewrite SFcompare_nan_r. intuition congruence. }
  rewrite SFcompare_key by done. rewrite <- lex3_lt.
  destruct (lex3 _ _); intuition congruence.
Qed.

Lemma ltb_false_key (x y : float) :
  is_nan x = false -> is_nan y = false ->
  (x <? y)%float = false -> key_le (Fkey y) (Fkey x).
Proof.
  intros Hx Hy H.
  assert (key_lt (Fkey x) (Fkey y) \/ key_le (Fkey y) (Fkey x)) as [L | L]
    by key_order; [| done].
  assert ((x <? y)%float = true) by (by apply ltb_key). congruence.
Qed.

Lemma zero_key (x : float) : is_zero x = true -> Fkey x = (0, 0, 0)%Z.
Proof.
  unfold is_zero. rewrite FloatAxioms.eqb_spec. unfold SFeqb, Fkey.
  change (Prim2SF PrimFloat.zero) with (S754_zero false).
  by destruct (Prim2SF x) as [s | s | | s m e]; try destruct s.
Qed.

(** ** Math.max, Math.min and substring *)

(** One step of [Math.max]: the new highest value is the old one or the
    argument, and is above both. *)
Lemma Math_max_step (highest number : float) (rest : list float) :
  is_nan highest = false -> is_nan number = false ->
  exists h, Math_max_from highest (number :: rest) = Math_max_from h rest
            /\ (h = highest \/ h = number) /\ is_nan h = false
            /\ key_le (Fkey highest) (Fkey h) /\ key_le (Fkey number) (Fkey h).
Proof.
  intros Hh Hn. simpl. rewrite Hn.
  set (h1 := if is_pos_zero number && is_neg_zero highest then number else highest).
  assert ((h1 = highest \/ h1 = number) /\ is_nan h1 = false
          /\ key_le (Fkey highest) (Fkey h1)) as (H1 & Hnan1 & Hle1).
  { unfold h1. destruct (is_pos_zero number && is_neg_zero highest) eqn:E.
    - apply andb_true_iff in E as [Ea Eb].
      apply andb_true_iff in Ea as [Ea _]. apply andb_true_iff in Eb as [Eb _].
      rewrite (zero_key _ Ea), (zero_key _ Eb). repeat split; auto. key_order.
    - repeat split; auto. key_order. }
  destruct (h1 <? number)%float eqn:E.
  - exists number. apply ltb_key in E as (_ & _ & E).
    repeat split; auto; key_order.
  - exists h1. apply ltb_false_key in E; [| done | done].
    repeat split; auto.
Qed.

Lemma Math_max_from_spec (args : list float) (highest : float) :
  is_nan highest = false ->
  Forall (fun v => is_nan v = false) args ->
  (Math_max_from highest args = highest \/ Math_max_from highest args ∈ args)
  /\ is_nan (Math_max_from highest args) = false
  /\ key_le (Fkey highest) (Fkey (Math_max_from highest args))
  /\ Forall (fun v => key_le (Fkey v) (Fkey (Math_max_from highest args))) args.
Proof.
  revert highest. induction args as [| number rest IH]; intros highest Hh Hargs.
  - simpl. repeat split; auto. key_order.
  - apply Forall_cons in Hargs as [Hn Hrest].
    destruct (Math_max_step highest number rest Hh Hn)
      as (h & -> & Hsrc & Hnan & Hle1 & Hle2).
    destruct (IH h Hnan Hrest) as (Hin & Hr & Hle & Hall).
    repeat split; auto.
    + destruct Hin as [-> | Hin]; [| right; by right].
      destruct Hsrc as [-> | ->]; [by left | right; by left].
    + key_order.
    + apply Forall_cons. split; [key_order | done].
Qed.

Lemma Math_max_from_nan (args : list float) (highest : float) :
  Exists (fun v => is_nan v = true) args -> Math_max_from highest args = nan.
Proof.
  revert highest. induction args as [| number rest IH]; intros highest Hex.
  - inversion Hex.
  - simpl. destruct (is_nan number) eqn:E; [done |].
    apply Exists_cons in Hex as [Hex | Hex]; [congruence |]. by apply IH.
Qed.

Lemma neg_infinity_least (x : float) :
  is_nan x = false -> key_le (Fkey x) (Fkey neg_infinity) -> x = neg_infinity.
Proof.
  intros Hx Hle. apply Prim2SF_inj. apply is_nan_false_iff in Hx.
  unfold Fkey in Hle. change (Prim2SF neg_infinity) with (S754_infinity true) in *.
  destruct (Prim2SF x) as [s | s | | s m e]; try destruct s; simpl in Hle;
    try done; key_order.
Qed.

(** One step of [Math.min], and the bound it gives: the result is NaN, or it
    is below the starting value and every argument. *)
Lemma Math_min_from_bound (args : list float) (lowest : float) :
  is_nan lowest = false ->
  is_nan (Math_min_from lowest args) = true
  \/ (is_nan (Math_min_from lowest args) = false
      /\ key_le (Fkey (Math_min_from lowest args)) (Fkey lowest)
      /\ Forall (fun v => key_le (Fkey (Math_min_from lowest args)) (Fkey v)) args).
Proof.
  revert lowest. induction args as [| number rest IH]; intros lowest Hl; simpl.
  - right. repeat split; auto. key_order.
  - destruct (is_nan number) eqn:Hn; [by left |].
    set (l1 := if is_neg_zero number && is_pos_zero lowest then number else lowest).
    assert (is_nan l1 = false /\ key_le (Fkey l1) (Fkey lowest)) as [Hnan1 Hle1].
    { unfold l1. destruct (is_neg_zero number && is_pos_zero lowest) eqn:E.
      - apply andb_true_iff in E as [Ea Eb].
        apply andb_true_iff in Ea as [Ea _]. apply andb_true_iff in Eb as [Eb _].
        rewrite (zero_key _ Ea), (zero_key _ Eb). split; [done | key_order].
      - split; [done | key_order]. }
    set (l2 := if (number <? l1)%float then number else l1).
    assert (is_nan l2 = false /\ key_le (Fkey l2) (Fkey l1)
            /\ key_le (Fkey l2) (Fkey number)) as (Hnan2 & Hle2 & Hle2').
    { unfold l2. destruct (number <? l1)%float eqn:E.
      - apply ltb_key in E as (_ & _ & E). repeat split; auto; key_order.
      - apply ltb_false_key in E; [| done | done]. repeat split; auto; key_order. }
    destruct (IH l2 Hnan2) as [Hr | (Hr & Hle & Hall)]; [by left | right].
    repeat split; auto; [key_order |].
    apply Forall_cons. split; [key_order | done].
Qed.

(** [Math.min(a, x)] never exceeds [a]. *)
Lemma Math_min_not_above (a x : float) : (a <? Math_min [a; x])%float = false.
Proof.
  destruct (a <? Math_min [a; x])%float eqn:E; [| done].
  apply ltb_key in E as (Ha & Hr & Hlt).
  destruct (Math_min_from_bound [a; x] infinity eq_refl) as [Hnan | (_ & _ & Hall)].
  - unfold Math_min in Hr. congruence.
  - apply Forall_cons in Hall as [Hle _]. unfold Math_min in Hlt. key_order.
Qed.

Lemma substring_from_0 (s : jsstring) (end_ : float) :
  substring s 0 end_ = take (clampIndex (length s) end_) s.
Proof.
  unfold substring.
  change (clampIndex (length s) 0) with 0.
  by rewrite Nat.min_0_l, Nat.max_0_l, Nat.sub_0_r.
Qed.

(** ** The data model *)

Lemma Set_add_elements (s : list jsstring) (x : jsstring) :
  (list_to_set (Set_add s x) : gset jsstring) = list_to_set s ∪ {[ x ]}.
Proof.
  unfold Set_add. case_bool_decide as Hin.
  - apply (elem_of_list_to_set (C := gset jsstring)) in Hin. set_solver.
  - rewrite list_to_set_app_L. set_solver.
Qed.

Lemma Set_add_NoDup (s : list jsstring) (x : jsstring) :
  NoDup s -> NoDup (Set_add s x).
Proof.
  intros Hs. unfold Set_add. case_bool_decide as Hin; [done |].
  apply NoDup_app. split; [done |]. split; [| apply NoDup_singleton].
  intros y Hy Hy'. apply list_elem_of_singleton in Hy'. by subst.
Qed.

Lemma Set_add_known (s : list jsstring) (x : jsstring) :
  x ∈ s -> Set_add s x = s.
Proof. intros Hin. unfold Set_add. by rewrite bool_decide_eq_true_2. Qed.

Lemma addSets_elements (names : list jsstring) (this : UpsetMatrixData) :
  (list_to_set (sets (foldl addSet this names)) : gset jsstring)
  = list_to_set (sets this) ∪ list_to_set names.
Proof.
  revert this. induction names as [| name names IH]; intros this; simpl.
  - set_solver.
  - rewrite IH. simpl. rewrite Set_add_elements. set_solver.
Qed.

Lemma addSets_NoDup (names : list jsstring) (this : UpsetMatrixData) :
  NoDup (sets this) -> NoDup (sets (foldl addSet this names)).
Proof.
  revert this. induction names as [| name names IH]; intros this Hs; simpl; [done |].
  apply IH. simpl. by apply Set_add_NoDup.
Qed.

Lemma addSets_known (names : list jsstring) (this : UpsetMatrixData) :
  (forall n, n ∈ names -> n ∈ sets this) ->
  sets (foldl addSet this names) = sets this.
Proof.
  revert this. induction names as [| name names IH]; intros this Hknown; simpl; [done |].
  assert (addSet this name = this) as ->.
  { destruct this as [s i]. unfold addSet. simpl. f_equal.
    apply Set_add_known, Hknown. by left. }
  apply IH. intros n Hn. apply Hknown. by right.
Qed.

Lemma addSets_intersections (names : list jsstring) (this : UpsetMatrixData) :
  intersections (foldl addSet this names) = intersections this.
Proof.
  revert this. induction names as [| name names IH]; intros this; simpl; [done |].
  by rewrite IH.
Qed.

Lemma addIntersection_elements (this : UpsetMatrixData) (set_ : jsstring) (value_ : float) :
  (list_to_set (getSets (addIntersection this set_ value_)) : gset jsstring)
  = list_to_set (getSets this) ∪ list_to_set (split COMMA set_).
Proof. unfold addIntersection, getSets. by rewrite addSets_elements. Qed.

Lemma addIntersection_NoDup (this : UpsetMatrixData) (set_ : jsstring) (value_ : float) :
  NoDup (getSets this) -> NoDup (getSets (addIntersection this set_ value_)).
Proof. intros Hs. unfold addIntersection, getSets. by apply addSets_NoDup. Qed.

Lemma addIntersection_intersections
    (this : UpsetMatrixData) (set_ : jsstring) (value_ : float) :
  getIntersections (addIntersection this set_ value_)
  = getIntersections this ++ [ {| set := set_; value := value_ |} ].
Proof. unfold addIntersection, getIntersections. by rewrite addSets_intersections. Qed.

Lemma addIntersections_snoc (calls : list (jsstring * float)) (call : jsstring * float) :
  addIntersections (calls ++ [call])
  = addIntersection (addIntersections calls) call.1 call.2.
Proof. unfold addIntersections. by rewrite foldl_app. Qed.

Lemma components_snoc (calls : list (jsstring * float)) (call : jsstring * float) :
  components (calls ++ [call]) = components calls ∪ list_to_set (split COMMA call.1).
Proof.
  unfold components. rewrite fmap_app, union_list_app_L. simpl. set_solver.
Qed.

(** C3. After any sequence of [addIntersection] calls on a new model, the set
    collection is exactly the union of the comma-split components of the keys
    added: it has the same elements, lists none twice, and its length is the
    size of that union. Adding an intersection whose components are all
    known leaves the set collection as it is. *)
Theorem addIntersection_sets_are_components (calls : list (jsstring * float)) :
  (list_to_set (getSets (addIntersections calls)) : gset jsstring) = components calls
  /\ NoDup (getSets (addIntersections calls))
  /\ length (getSets (addIntersections calls)) = size (components calls)
  /\ (forall set_ value_,
        (forall name, name ∈ split COMMA set_ -> name ∈ getSets (addIntersections calls)) ->
        getSets (addIntersection (addIntersections calls) set_ value_)
        = getSets (addIntersections calls)).
Proof.
  assert ((list_to_set (getSets (addIntersections calls)) : gset jsstring)
          = components calls
          /\ NoDup (getSets (addIntersections calls))) as [Hset Hnodup].
  { induction calls as [| call calls IH] using rev_ind.
    - split; [done | constructor].
    - destruct IH as [IHset IHnodup].
      rewrite addIntersections_snoc, components_snoc. split.
      + by rewrite addIntersection_elements, IHset.
      + by apply addIntersection_NoDup. }
  repeat split; try done.
  - rewrite <- Hset. symmetry. by apply size_list_to_set.
  - intros set_ value_ Hknown. unfold addIntersection, getSets.
    by rewrite addSets_known.
Qed.

(** C8. [getMaxIntersectionValue] returns 0 for a model without
    intersections. For a model with intersections whose values are numbers
    (none is NaN), it returns one of the values, and every value is at most
    it. (A NaN among the values makes the result NaN.) *)
Theorem getMaxIntersectionValue_is_maximum (this : UpsetMatrixData) :
  (getIntersections this = [] -> getMaxIntersectionValue this = 0%float)
  /\ (getIntersections this <> [] ->
      Forall (fun i => isNaN (value i) = false) (getIntersections this) ->
      (exists i, i ∈ getIntersections this /\ getMaxIntersectionValue this = value i)
      /\ Forall (fun i => (value i <=? getMaxIntersectionValue this)%float = true)
           (getIntersections this))
  /\ (Exists (fun i => isNaN (value i) = true) (getIntersections this) ->
      getMaxIntersectionValue this = nan).
Proof.
  unfold getMaxIntersectionValue, getIntersections.
  destruct (intersections this) as [| i0 rest] eqn:Hi.
  - split; [done |]. split; [done |]. intros Hex. inversion Hex.
  - split; [done |]. change (length (i0 :: rest) =? 0) with false. cbv iota.
    split.
    + intros _ Hnum. unfold Math_max.
      assert (Forall (fun v => is_nan v = false) (value <$> i0 :: rest)) as Hnum'
        by (by apply Forall_fmap).
      destruct (Math_max_from_spec (value <$> i0 :: rest) neg_infinity eq_refl Hnum')
        as (Hin & Hnan & _ & Hall).
      set (r := Math_max_from neg_infinity (value <$> i0 :: rest)) in *.
      split.
      * assert (r ∈ value <$> i0 :: rest) as Hr.
        { destruct Hin as [Hr | Hr]; [| done].
          apply Forall_cons in Hall as [H0 _]. apply Forall_cons in Hnum' as [Hn0 _].
          rewrite Hr in H0. apply (neg_infinity_least _ Hn0) in H0.
          rewrite Hr, <- H0. by left. }
        apply list_elem_of_fmap in Hr as (i & -> & Hi'). eauto.
      * apply Forall_fmap in Hall. apply Forall_fmap in Hnum'.
        eapply Forall_impl; [apply Forall_and; split; [exact Hnum' | exact Hall] |].
        intros i [Hn Hle]. simpl in *. by apply leb_key.
    + intros Hex. apply Math_max_from_nan. by apply Exists_fmap.
Qed.

(** ** The parser *)

Lemma parseLine_throws (st : ParseState) (line : jsstring) :
  (exists e, parseLine st line = inl e) <-> malformed line.
Proof.
  unfold parseLine, malformed.
  case_bool_decide as Hblank.
  { split; [intros [e He]; discriminate | tauto]. }
  destruct (startsWith line HASH).
  { split; [intros [e He]; discriminate | intros (_ & ? & _); discriminate]. }
  destruct (Nat.eqb_spec (length (split TAB line)) 2) as [Hlen | Hlen].
  - split; [| tauto].
    intros [e He]. destruct (negb _); discriminate.
  - split; eauto.
Qed.

Lemma parseLine_total (st : ParseState) (line : jsstring) :
  ~ malformed line -> exists st', parseLine st line = inr st'.
Proof.
  intros Hok. destruct (parseLine st line) as [e | st'] eqn:E; [| eauto].
  exfalso. apply Hok, (parseLine_throws st). eauto.
Qed.

Lemma forEach_throws (lines : list jsstring) (st : ParseState) :
  (exists e, forEach lines st = inl e) <-> exists line, line ∈ lines /\ malformed line.
Proof.
  revert st. induction lines as [| line rest IH]; intros st; simpl.
  - split; [intros [e He]; discriminate | intros (l & Hl & _); inversion Hl].
  - destruct (parseLine st line) as [e | st'] eqn:E.
    + split; [| eauto].
      intros _. exists line. split; [left |]. apply (parseLine_throws st). eauto.
    + rewrite IH. split.
      * intros (l & Hl & Hbad). exists l. split; [by right | done].
      * intros (l & Hl & Hbad). apply elem_of_cons in Hl as [-> | Hl]; [| eauto].
        apply (parseLine_throws st) in Hbad as [e He]. congruence.
Qed.

Lemma forEach_app (l1 l2 : list jsstring) (st : ParseState) :
  forEach (l1 ++ l2) st =
  match forEach l1 st with
  | inr st' => forEach l2 st'
  | inl e => inl e
  end.
Proof.
  revert st. induction l1 as [| line rest IH]; intros st; simpl; [done |].
  destruct (parseLine st line); [done | apply IH].
Qed.

Lemma parseLine_outcome (st1 st2 : ParseState) (line : jsstring) :
  ps_data st1 = ps_data st2 ->
  outcome (parseLine st1 line) = outcome (parseLine st2 line).
Proof.
  intros Hd. unfold parseLine.
  case_bool_decide; [by simpl; f_equal |].
  destruct (startsWith line HASH); [by simpl; f_equal |].
  destruct (length (split TAB line) =? 2); [| done].
  destruct (negb _); simpl; by rewrite Hd.
Qed.

Lemma forEach_outcome (lines : list jsstring) (st1 st2 : ParseState) :
  ps_data st1 = ps_data st2 ->
  outcome (forEach lines st1) = outcome (forEach lines st2).
Proof.
  revert st1 st2. induction lines as [| line rest IH]; intros st1 st2 Hd; simpl.
  - by f_equal.
  - pose proof (parseLine_outcome st1 st2 line Hd) as Hl.
    destruct (parseLine st1 line) as [e1 | s1], (parseLine st2 line) as [e2 | s2];
      simpl in Hl; try discriminate.
    + done.
    + apply IH. congruence.
Qed.

Lemma parseUpsetMatrix_outcome (name result : jsstring) :
  parseUpsetMatrix name (onload result) =
  match outcome (parseText result) with
  | inr d => Resolved {| data := d; fileName := name; status := 1 |}
  | inl _ => Rejected FormatError
  end.
Proof. unfold parseUpsetMatrix. by destruct (parseText result). Qed.

(** C1. [parseUpsetMatrix] rejects with the format error, which is not the
    error of a failed read, exactly when some line that is not blank after
    trimming and does not start with [#] does not split on tab into exactly
    two fields. The rejection carries the error alone, so the caller keeps the
    model it had: no partial model reaches it. *)
Theorem parseUpsetMatrix_rejects_iff_malformed (name result : jsstring) :
  (parseUpsetMatrix name (onload result) = Rejected FormatError <->
   exists line, line ∈ split LF result /\ malformed line)
  /\ FormatError <> FileReadError
  /\ ((exists line, line ∈ split LF result /\ malformed line) ->
      forall upsetMatrixFile,
        handleUpsetMatrixFileUpload upsetMatrixFile
          (parseUpsetMatrix name (onload result))
        = {| data := data upsetMatrixFile; fileName := fileName upsetMatrixFile;
             status := -1 |}).
Proof.
  assert (parseUpsetMatrix name (onload result) = Rejected FormatError <->
          exists line, line ∈ split LF result /\ malformed line) as Hiff.
  { rewrite <- (forEach_throws _ {| ps_data := new_UpsetMatrixData; ps_warned := [] |}).
    unfold parseUpsetMatrix, parseText.
    destruct (forEach _ _) as [e | st].
    - split; [intros _; by exists e | done].
    - split; [discriminate | intros [e He]; discriminate]. }
  split; [exact Hiff |]. split; [discriminate |].
  intros Hbad upsetMatrixFile. apply Hiff in Hbad. by rewrite Hbad.
Qed.

Lemma parseLine_dropped (st : ParseState) (line f0 f1 : jsstring) :
  split TAB line = [f0; f1] ->
  isNaN (parseInt10 (trim f1)) = true ->
  exists st', parseLine st line = inr st' /\ ps_data st' = ps_data st.
Proof.
  intros Hfields Hnan. unfold parseLine.
  case_bool_decide; [eauto |].
  destruct (startsWith line HASH); [eauto |].
  rewrite Hfields. simpl. rewrite Hnan. simpl. eauto.
Qed.

(** C2. A line of exactly two tab-separated fields whose second field does
    not parse as an integer is dropped without failing: the callback returns
    with the model unchanged, and the promise is settled as it is for the
    text without that line, so the later lines are parsed and the parse
    resolves whenever the other lines are well formed. For the text
    ["SetA\tNaN\n"] the parse resolves with no intersection and no set. *)
Theorem parseUpsetMatrix_drops_non_integer
    (name result : jsstring) (before after : list jsstring) (line f0 f1 : jsstring) :
  split LF result = before ++ line :: after ->
  split TAB line = [f0; f1] ->
  isNaN (parseInt10 (trim f1)) = true ->
  (forall st, exists st', parseLine st line = inr st' /\ ps_data st' = ps_data st)
  /\ parseUpsetMatrix name (onload result) =
     match outcome (forEach (before ++ after)
                      {| ps_data := new_UpsetMatrixData; ps_warned := [] |}) with
     | inr d => Resolved {| data := d; fileName := name; status := 1 |}
     | inl _ => Rejected FormatError
     end
  /\ parseUpsetMatrix name (onload (js "SetA" ++ [TAB] ++ js "NaN" ++ [LF]))
     = Resolved {| data := {| sets := []; intersections := [] |};
                   fileName := name; status := 1 |}.
Proof.
  intros Hlines Hfields Hnan.
  split; [intros st; by eapply parseLine_dropped |].
  split; [| by vm_compute].
  rewrite parseUpsetMatrix_outcome. unfold parseText. rewrite Hlines.
  set (st0 := {| ps_data := new_UpsetMatrixData; ps_warned := [] |}).
  rewrite !forEach_app.
  destruct (forEach before st0) as [e | st]; [done |].
  simpl. destruct (parseLine_dropped st line f0 f1 Hfields Hnan) as (st' & -> & Hd).
  by rewrite (forEach_outcome after st' st Hd).
Qed.

Lemma parseLine_entries (lines : list jsstring) (st st' : ParseState) (line : jsstring) :
  line ∈ lines ->
  parseLine st line = inr st' ->
  Forall (accepted_from lines) (intersections (ps_data st)) ->
  Forall (accepted_from lines) (intersections (ps_data st')).
Proof.
  intros Hin Hline Hst. unfold parseLine in Hline.
  case_bool_decide; [by simplify_eq |].
  destruct (startsWith line HASH); [by simplify_eq |].
  destruct (Nat.eqb_spec (length (split TAB line)) 2) as [Hlen | Hlen]; [| done].
  destruct (split TAB line) as [| f0 [| f1 [| f2 fields]]] eqn:Hfields; try done.
  simpl in Hline.
  destruct (isNaN (parseInt10 (trim f1))) eqn:Hnan; simpl in Hline; simplify_eq; [done |].
  simpl. fold (getIntersections (addIntersection (ps_data st) (trim f0) (parseInt10 (trim f1)))).
  rewrite addIntersection_intersections. apply Forall_app. split; [done |].
  apply Forall_singleton. exists line, f0, f1. by simpl.
Qed.

Lemma forEach_entries (lines rest : list jsstring) (st st' : ParseState) :
  rest ⊆ lines ->
  forEach rest st = inr st' ->
  Forall (accepted_from lines) (intersections (ps_data st)) ->
  Forall (accepted_from lines) (intersections (ps_data st')).
Proof.
  revert st. induction rest as [| line rest IH]; intros st Hsub Hrun Hst; simpl in Hrun.
  - by simplify_eq.
  - destruct (parseLine st line) as [e | st1] eqn:Hline; [done |].
    apply (IH st1); [set_solver | done |].
    eapply parseLine_entries; [| done | done]. set_solver.
Qed.

Lemma parseInt10_integer (s : jsstring) :
  isNaN (parseInt10 s) = false ->
  exists z : Z, parseInt10 s = Number_of_Z z \/ parseInt10 s = PrimFloat.neg_zero.
Proof.
  unfold parseInt10.
  destruct (digitPrefix _) as [| d digits]; [done |]. intros _.
  destruct (mathInt (d :: digits) =? 0)%Z.
  - destruct (Z.eqb _ (-1)); [by exists 0%Z; right | by exists 0%Z; left].
  - eexists. by left.
Qed.

(** C4, as the code has it. Every entry of a model that a successful parse
    delivers comes from a line of two fields: its key is the trimmed first
    field and its value is [parseInt] of the trimmed second field, which is
    not NaN; so the value is the number value of an integer, of either sign,
    or the negative zero. *)
Theorem parseUpsetMatrix_values_are_integers (name result : jsstring) (file : UpsetMatrixFile) :
  parseUpsetMatrix name (onload result) = Resolved file ->
  Forall (fun i =>
            accepted_from (split LF result) i
            /\ isNaN (value i) = false
            /\ exists z : Z, value i = Number_of_Z z \/ value i = PrimFloat.neg_zero)
         (getIntersections (data file)).
Proof.
  unfold parseUpsetMatrix, parseText.
  destruct (forEach _ _) as [e | st] eqn:Hrun; [done |]. intros [= <-]. simpl.
  eapply Forall_impl.
  - eapply (forEach_entries (split LF result)); [| exact Hrun | by constructor]. done.
  - intros i Hi. split; [done |].
    destruct Hi as (line & f0 & f1 & _ & _ & _ & Hv & Hnan).
    split; [done |]. rewrite Hv in *. by apply parseInt10_integer.
Qed.

(** ** The chart and its interaction states *)

Lemma omap_fmap_None {A B C} (f : B -> option C) (g : A -> B) (l : list A) :
  (forall x, f (g x) = None) -> omap f (g <$> l) = [].
Proof. intros H. induction l as [| x l IH]; simpl; [done |]. by rewrite H. Qed.

Lemma omap_fmap_Some {A B C} (f : B -> option C) (g : A -> B) (h : A -> C) (l : list A) :
  (forall x, f (g x) = Some (h x)) -> omap f (g <$> l) = h <$> l.
Proof.
  intros H. induction l as [| x l IH]; simpl; [done |].
  rewrite H. f_equal. exact IH.
Qed.

Lemma fmap_imap_snd {A B} (h : A -> B) (k : nat -> nat) (l : list A) :
  (fun p : nat * A => h p.2) <$> imap (fun i d => (k i, d)) l = h <$> l.
Proof.
  revert k. induction l as [| x l IH]; intros k; simpl; [done |].
  f_equal. apply (IH (k ∘ S)).
Qed.

Lemma fmap_indexed_snd {A B} (h : A -> B) (l : list A) :
  (fun p : nat * A => h p.2) <$> indexed l = h <$> l.
Proof. unfold indexed. apply (fmap_imap_snd h id). Qed.

Lemma imap_const {A B} (h : nat -> A -> B) (b : B) (l : list A) :
  (forall i x, h i x = b) -> imap h l = replicate (length l) b.
Proof.
  revert h. induction l as [| x l IH]; intros h Hh; [done |].
  simpl. rewrite Hh. f_equal. apply IH. intros i y. apply Hh.
Qed.

Lemma fmap_indexed_const {A B} (f : nat * A -> B) (b : B) (l : list A) :
  (forall p, f p = b) -> f <$> indexed l = replicate (length l) b.
Proof.
  intros Hf. unfold indexed. rewrite fmap_imap.
  apply imap_const. intros i x. apply Hf.
Qed.

Section ChartProperties.

Variable scaleLinear : float * float -> float * float -> float -> float.

Variable getComputedTextLength : float -> float -> float.

Local Abbreviation scene := (render_scene scaleLinear getComputedTextLength).
Local Abbreviation render_ := (render scaleLinear getComputedTextLength).
Local Abbreviation click_ := (click scaleLinear getComputedTextLength).

Local Opaque geometry.

Lemma render_scene_skips_iff_empty (this : UpsetPlot) :
  scene this = None <->
  getSets (upsetMatrix this) = [] \/ getIntersections (upsetMatrix this) = [].
Proof.
  unfold render_scene.
  destruct (getSets (upsetMatrix this)) as [| s ss];
    destruct (getIntersections (upsetMatrix this)) as [| i rest]; simpl;
    split; auto; try discriminate.
  intros [H | H]; discriminate.
Qed.

(** What [render] draws for a model that is not empty. *)
Lemma render_scene_draws (this : UpsetPlot) :
  getSets (upsetMatrix this) <> [] ->
  getIntersections (upsetMatrix this) <> [] ->
  exists c, scene this = Some c.
Proof.
  intros Hs Hi. destruct (scene this) as [c |] eqn:E; [eauto |].
  apply render_scene_skips_iff_empty in E. tauto.
Qed.

(** A property of every child of the container. *)
Ltac each_child :=
  repeat first [ apply Forall_nil_2
               | apply Forall_cons; split
               | apply Forall_app; split ];
  try (apply Forall_fmap, Forall_true; intros [? ?]; unfold compose; cbv beta iota).

(** C5. For a model with S sets and N intersections, both positive, [render]
    draws, and in its layout the dot matrix is half the effective chart width
    wide, a cell is that width divided by S, and a row is
    [min(30, dot-matrix height / N)] high, which never exceeds 30. Every
    background cell drawn has that width and that height, and each row has S
    of them. *)
Theorem render_cell_sizes (this : UpsetPlot) :
  getSets (upsetMatrix this) <> [] ->
  getIntersections (upsetMatrix this) <> [] ->
  let S_ := Number_of_nat (length (getSets (upsetMatrix this))) in
  let N_ := Number_of_nat (length (getIntersections (upsetMatrix this))) in
  let g := geometry this in
  let total := Dimensions.width (dimensions this) in
  (width g = total - Math_max [70; total * 0.15] - Math_max [60; total * 0.1]
   /\ dot_width g = width g * 0.5
   /\ cell_width g = dot_width g / S_
   /\ cell_height g = Math_min [30; dot_height g / N_]
   /\ (30 <? cell_height g) = false)%float
  /\ exists c,
      scene this = Some c
      /\ forall d ty rects circles,
          g_gridRow d ty rects circles ∈ children c ->
          length rects = length (getSets (upsetMatrix this))
          /\ Forall (fun r => rect_width r = cell_width g
                              /\ rect_height r = cell_height g) rects.
Proof.
  intros Hs Hi S_ N_ g total. split.
  { repeat split; try reflexivity. apply Math_min_not_above. }
  destruct (render_scene_draws this Hs Hi) as [c Hc]. exists c. split; [done |].
  assert (Forall (fun e =>
            match e with
            | g_gridRow _ _ rects _ =>
                length rects = length (getSets (upsetMatrix this))
                /\ Forall (fun r => rect_width r = cell_width g
                                    /\ rect_height r = cell_height g) rects
            | _ => True
            end) (children c)) as Hall.
  { unfold render_scene in Hc.
    destruct (_ || _); [discriminate |]. injection Hc as <-.
    cbv zeta. cbn [children]. fold g. each_child; try done.
    - by destruct (_ && _).
    - split.
      + unfold indexed. by rewrite !length_fmap, length_imap.
      + apply Forall_fmap, Forall_true. by intros [? ?].
    - by destruct (_ <? _)%float. }
  intros d ty rects circles Hin.
  by apply (proj1 (Forall_forall _ _) Hall _ Hin).
Qed.

(** C6, as the code has it. [render] skips drawing exactly when the model has
    no set or no intersection. For any other model it completes and leaves the
    whole chart drawn, whatever the effective chart width and height are (zero
    and negative included): in document order the frame, a label per set, a
    row per intersection, a bar and a bar label per intersection, the axis, and
    a row label and an event surface per intersection. The layout is computed
    from the effective sizes as they are: the effective width is the width
    less the two side margins, the effective height the height less 40, the
    frame is the dot matrix (half the effective width, the effective height
    less the label height), every row holds a background cell and a circle per
    set, the bars start where the dot matrix and the spacer end, the axis
    spans the bar section, and every event surface is as wide as the effective
    width and as high as a cell. *)
Theorem render_skips_iff_model_empty (this : UpsetPlot) :
  (scene this = None <->
   getSets (upsetMatrix this) = [] \/ getIntersections (upsetMatrix this) = [])
  /\ (getSets (upsetMatrix this) <> [] ->
      getIntersections (upsetMatrix this) <> [] ->
      exists c, scene this = Some c /\ svg (render_ this) = Some c)
  /\ forall c, scene this = Some c ->
       let S_ := length (getSets (upsetMatrix this)) in
       let N_ := length (getIntersections (upsetMatrix this)) in
       let g := geometry this in
       selector <$> children c
       = ["rect"%string]
         ++ replicate S_ "text.setLabel"%string
         ++ replicate N_ "g.gridRow"%string
         ++ replicate N_ "rect.valueBar"%string
         ++ replicate N_ "text.barLabel"%string
         ++ ["g.x-axis"%string]
         ++ replicate N_ "text.intersectionLabel"%string
         ++ replicate N_ "rect.eventRect"%string
       /\ length (children c) = 2 + S_ + 5 * N_
       /\ (width g = Dimensions.width (dimensions this)
                     - Margin.left (margin g) - Margin.right (margin g)
           /\ height g = Dimensions.height (dimensions this) - 30 - 10
           /\ dot_width g = width g * 0.5
           /\ dot_height g = height g - label_height g
           /\ bar_x g = width g * 0.5 + width g * 0.025
           /\ bar_width g = width g - width g * 0.5 - width g * 0.025 - 40)%float
       /\ head (children c)
          = Some (rect_frame 0 (label_height g) (dot_width g) (dot_height g))
       /\ Forall (fun e =>
                    match e with
                    | g_gridRow _ _ rects circles =>
                        length rects = S_ /\ length circles = S_
                    | rect_valueBar _ x _ _ h _ =>
                        x = bar_x g /\ h = (cell_height g * 0.8)%float
                    | g_x_axis ty _ range _ =>
                        ty = label_height g
                        /\ range = (bar_x g, (bar_x g + bar_width g)%float)
                    | rect_eventRect _ x _ w h =>
                        x = 0%float /\ w = width g /\ h = cell_height g
                    | _ => True
                    end) (children c).
Proof.
  split; [apply render_scene_skips_iff_empty |]. split.
  { intros Hs Hi. destruct (render_scene_draws this Hs Hi) as [c Hc]. by exists c. }
  intros c Hc S_ N_ g. unfold render_scene in Hc.
  destruct (_ || _); [discriminate |]. injection Hc as <-.
  cbv zeta. cbn [children]. fold g. repeat split.
  - repeat first [ rewrite fmap_cons | rewrite fmap_app ].
    rewrite <- !list_fmap_compose. cbn [selector app].
    repeat (f_equal; try (apply fmap_indexed_const; intros [? ?]; unfold compose;
                          cbv beta iota zeta;
                          try destruct (andb _ _); try destruct (PrimFloat.ltb _ _);
                          reflexivity)).
  - unfold indexed.
    repeat first [ rewrite length_app | rewrite length_fmap | rewrite length_imap
                 | progress cbn [length] ].
    fold S_ N_. lia.
  - each_child; try done.
    + by destruct (andb _ _).
    + unfold indexed. by rewrite !length_fmap, length_imap.
    + by destruct (PrimFloat.ltb _ _).
Qed.

(** C7, as the code has it. With
    [maxDisplayLength = floor(leftMargin / (labelFontSize * 0.6)) - 2], the
    row labels drawn are, in row order, one per intersection: the full key
    when [maxDisplayLength] is not below its length, and otherwise the first
    [maxDisplayLength - 3] characters of the key (none when that is negative)
    followed by three dots. The title of each label is the full key. *)
Theorem render_intersection_labels (this : UpsetPlot) :
  getSets (upsetMatrix this) <> [] ->
  let g := geometry this in
  let maxDisplayLength :=
    (Math_floor (Margin.left (margin g) / (labelFontSize g * 0.6)) - 2)%float in
  intersectionLabels (scene this)
  = (fun d =>
       (if (maxDisplayLength <? Number_of_nat (length (set d)))%float
        then take (clampIndex (length (set d)) (maxDisplayLength - 3)%float) (set d)
             ++ js "..."
        else set d,
        set d))
    <$> getIntersections (upsetMatrix this).
Proof.
  intros Hs g maxDisplayLength. unfold render_scene.
  destruct (getSets (upsetMatrix this)) as [| s ss] eqn:Hsets; [done |].
  destruct (getIntersections (upsetMatrix this)) as [| i rest] eqn:Hi; [done |].
  change (_ || _) with false. cbv iota zeta. fold g.
  unfold intersectionLabels. cbn [children].
  rewrite !omap_app.
  repeat match goal with
         | |- context [omap ?f (?g <$> ?l)] =>
             rewrite (omap_fmap_None f g l)
               by (intros [? ?]; try destruct (andb _ _);
                   try destruct (PrimFloat.ltb _ _); done)
         end.
  cbn [omap list_omap app]. rewrite app_nil_r.
  rewrite <- (fmap_indexed_snd _ (i :: rest)).
  apply omap_fmap_Some. intros [n d]. cbn [snd].
  unfold intersectionLabelText. fold maxDisplayLength.
  by rewrite substring_from_0.
Qed.

Lemma click_toggles (this : UpsetPlot) (d : Intersection) :
  onIntersectionClick this = None ->
  click_ this d
  = (render_ (with_selectedIntersections this
                (if includes (selectedIntersections this) (set d)
                 then filter (fun s => s <> set d) (selectedIntersections this)
                 else selectedIntersections this ++ [set d])),
     None).
Proof. intros Hcb. unfold click. by rewrite Hcb. Qed.

(** C9. With no click callback registered, a click on a row removes its key
    from the selection when it is there and appends it otherwise, and calls
    nothing outside. A second click on a row of the same key brings the
    selection back to the keys it held before the first. *)
Theorem click_twice_restores_selection (this : UpsetPlot) (d d' : Intersection) :
  onIntersectionClick this = None ->
  set d' = set d ->
  let once := (click_ this d).1 in
  let twice := (click_ once d').1 in
  selectedIntersections once
  = (if includes (selectedIntersections this) (set d)
     then filter (fun s => s <> set d) (selectedIntersections this)
     else selectedIntersections this ++ [set d])
  /\ (click_ this d).2 = None
  /\ (list_to_set (selectedIntersections twice) : gset jsstring)
     = list_to_set (selectedIntersections this).
Proof.
  intros Hcb Hkey once twice.
  assert (Honce : click_ this d = (once, None)).
  { unfold once. by rewrite (click_toggles this d Hcb). }
  unfold twice, once. rewrite !(click_toggles this d Hcb). cbn [fst snd].
  split; [done |]. split; [done |].
  rewrite click_toggles by done. cbn [fst]. rewrite Hkey.
  cbn [render with_svg with_selectedIntersections selectedIntersections].
  unfold includes. apply set_eq. intros k.
  destruct (decide (set d ∈ selectedIntersections this)) as [Hin | Hout].
  - rewrite (bool_decide_eq_true_2 _ Hin).
    rewrite bool_decide_eq_false_2
      by (rewrite list_elem_of_filter; intros [Hne _]; by apply Hne).
    rewrite elem_of_list_to_set, elem_of_app, list_elem_of_filter,
      list_elem_of_singleton, elem_of_list_to_set.
    destruct (decide (k = set d)) as [-> | Hne]; intuition.
  - rewrite (bool_decide_eq_false_2 _ Hout).
    rewrite bool_decide_eq_true_2 by (apply elem_of_app; right; by left).
    rewrite !elem_of_list_to_set, list_elem_of_filter, elem_of_app,
      list_elem_of_singleton.
    split; [intros [Hne [Hk | Hk]]; done |].
    intros Hk. split; [intros -> | by left]. done.
Qed.

(** The recolouring pass on a chart drawn for the same model and dimensions,
    in any earlier interaction state. *)
Lemma updateHighlighting_scene (drawn now : UpsetPlot) :
  upsetMatrix now = upsetMatrix drawn ->
  geometry now = geometry drawn ->
  svg now = scene drawn ->
  svg (updateHighlighting now) = scene now.
Proof.
  intros Hm Hg Hsvg. unfold updateHighlighting. cbn [svg with_svg].
  rewrite Hsvg. unfold render_scene. rewrite Hg, Hm.
  destruct (_ || _); [done |].
  cbv zeta. unfold selectAll. cbn [fmap option_fmap option_map].
  cbn [children translate_x translate_y]. f_equal. f_equal.
  rewrite !fmap_app. cbn [fmap list_fmap].
  repeat match goal with
         | |- _ :: _ = _ :: _ => f_equal
         | |- _ ++ _ = _ ++ _ => f_equal
         end.
  all: rewrite <- ?list_fmap_compose; apply list_fmap_ext; intros ? [? ?] _;
       unfold compose; cbv beta iota.
  all: try reflexivity.
  all: try (destruct (andb _ _); reflexivity).
  all: try (destruct (PrimFloat.ltb _ _); reflexivity).
  cbn [style_fill_rect_gridCell style_fill_circle_gridCell style_fill_rect_valueBar].
  f_equal.
  all: rewrite <- ?list_fmap_compose; apply list_fmap_ext; intros ? [? ?] _;
       unfold compose; cbv beta iota; reflexivity.
Qed.

(** C10. After a full render, in whatever interaction state, let the
    selection and the hovered key change. The recolouring pass then leaves
    the chart exactly as a full render in the new state draws it: every cell
    background, membership circle and value bar gets the fill the full render
    gives it, and nothing else changes. *)
Theorem updateHighlighting_agrees_with_render
    (this : UpsetPlot) (selected : list jsstring) (hovered : option jsstring) :
  let now :=
    with_hoveredIntersection (with_selectedIntersections (render_ this) selected)
      hovered in
  updateHighlighting now = render_ now.
Proof.
  intros now.
  assert (svg (updateHighlighting now) = scene now) as H
    by (by apply (updateHighlighting_scene this now)).
  unfold render. rewrite <- H. reflexivity.
Qed.

End ChartProperties.

(** * Further properties *)

(** ** The parser, line by line *)

Lemma parseLine_entry (st st' : ParseState) (line : jsstring) :
  parseLine st line = inr st' ->
  ps_data st' = match entryOf line with
                | Some call => addIntersection (ps_data st) call.1 call.2
                | None => ps_data st
                end.
Proof.
  unfold parseLine, entryOf, skipped.
  case_bool_decide; [by intros [= <-] |]. cbn [orb].
  destruct (startsWith line HASH); [by intros [= <-] |].
  destruct (split TAB line) as [| f0 [| f1 [| f2 fields]]]; try done.
  cbn [length Nat.eqb nth].
  destruct (isNaN (parseInt10 (trim f1))); cbn [negb]; by intros [= <-].
Qed.

Lemma forEach_entries_fold (lines : list jsstring) (st st' : ParseState) :
  forEach lines st = inr st' ->
  ps_data st' = foldl (fun this call => addIntersection this call.1 call.2)
                  (ps_data st) (omap entryOf lines).
Proof.
  revert st. induction lines as [| line rest IH]; intros st; simpl.
  - by intros [= <-].
  - destruct (parseLine st line) as [e | st1] eqn:Hline; [done |].
    intros Hrest. rewrite (IH st1 Hrest), (parseLine_entry st st1 line Hline).
    by destruct (entryOf line).
Qed.

Lemma addIntersections_intersections (calls : list (jsstring * float)) :
  getIntersections (addIntersections calls)
  = (fun call => {| set := call.1; value := call.2 |}) <$> calls.
Proof.
  induction calls as [| call calls IH] using rev_ind; [done |].
  by rewrite addIntersections_snoc, addIntersection_intersections, IH, fmap_app.
Qed.

Lemma parse_resolved_data (name result : jsstring) (file : UpsetMatrixFile) :
  parseUpsetMatrix name (onload result) = Resolved file ->
  file = {| data := addIntersections (entries result); fileName := name; status := 1 |}.
Proof.
  unfold parseUpsetMatrix, parseText.
  destruct (forEach _ _) as [e | st] eqn:Hrun; [done |]. intros [= <-].
  by rewrite (forEach_entries_fold _ _ _ Hrun).
Qed.

(** X1. A parse that resolves delivers the model that the calls
    [addIntersection(trimmed first field, parseInt of the second)] build on a
    new model, one call per line that is not skipped, has two fields and a
    count that is not NaN, in the order of the lines; so the intersections are
    those entries, in file order. *)
Theorem parseUpsetMatrix_model (name result : jsstring) (file : UpsetMatrixFile) :
  parseUpsetMatrix name (onload result) = Resolved file ->
  data file = addIntersections (entries result)
  /\ getIntersections (data file)
     = (fun call => {| set := call.1; value := call.2 |}) <$> entries result
  /\ fileName file = name /\ status file = 1%Z.
Proof.
  intros ->%parse_resolved_data. simpl.
  by rewrite addIntersections_intersections.
Qed.

Lemma parseLine_skipped (st : ParseState) (line : jsstring) :
  skipped line = true -> parseLine st line = inr st.
Proof.
  unfold skipped, parseLine. case_bool_decide; [done |]. cbn [orb].
  by intros ->.
Qed.

(** X2. A line that is blank after trimming, or that starts with [#], counts
    for nothing wherever it stands: the promise settles as it does for the
    text without that line, be it resolved or rejected. *)
Theorem parseUpsetMatrix_skips_line
    (name result : jsstring) (before after : list jsstring) (line : jsstring) :
  split LF result = before ++ line :: after ->
  skipped line = true ->
  parseUpsetMatrix name (onload result) =
  match outcome (forEach (before ++ after)
                   {| ps_data := new_UpsetMatrixData; ps_warned := [] |}) with
  | inr d => Resolved {| data := d; fileName := name; status := 1 |}
  | inl _ => Rejected FormatError
  end.
Proof.
  intros Hlines Hskip. rewrite parseUpsetMatrix_outcome. unfold parseText.
  rewrite Hlines, !forEach_app.
  destruct (forEach before _) as [e | st]; [done |].
  simpl. by rewrite (parseLine_skipped st line Hskip).
Qed.

Lemma split_length (sep : N) (s : jsstring) :
  length (split sep s) = S (length (filter (fun c => c = sep) s)).
Proof.
  induction s as [| c s IH]; [done |]. simpl.
  destruct (N.eqb_spec c sep) as [-> | Hne].
  - rewrite filter_cons_True by done. simpl. by rewrite IH.
  - rewrite filter_cons_False by done.
    destruct (split sep s) as [| piece pieces]; [done |]. exact IH.
Qed.

(** X4. The parse is rejected exactly when some line that is not skipped
    holds a number of tab characters other than one: two fields means one
    tab. *)
Theorem parseUpsetMatrix_rejects_iff_tabs (name result : jsstring) :
  parseUpsetMatrix name (onload result) = Rejected FormatError <->
  exists line, line ∈ split LF result /\ skipped line = false /\ tabs line <> 1.
Proof.
  assert (forall line, malformed line <-> skipped line = false /\ tabs line <> 1) as Hm.
  { intros line. unfold malformed, skipped, tabs. rewrite split_length.
    case_bool_decide as Hb; cbn [orb].
    - split; [tauto | intros [? _]; discriminate].
    - destruct (startsWith line HASH).
      + split; [intros (_ & ? & _) | intros [? _]]; discriminate.
      + split; [intros (_ & _ & Ht) | intros [_ Ht]]; repeat split; try done; lia. }
  unfold parseUpsetMatrix, parseText.
  pose proof (forEach_throws (split LF result)
                {| ps_data := new_UpsetMatrixData; ps_warned := [] |}) as Hthrow.
  destruct (forEach _ _) as [e | st].
  - split; [intros _ | done].
    destruct (proj1 Hthrow (ex_intro _ e eq_refl)) as (line & Hin & Hbad).
    exists line. split; [done |]. by apply Hm.
  - split; [discriminate |]. intros (line & Hin & Hbad).
    destruct (proj2 Hthrow) as [e He]; [| discriminate].
    exists line. split; [done |]. by apply Hm.
Qed.

Lemma split_nonempty (sep : N) (s : jsstring) : split sep s <> [].
Proof.
  intros H. apply (f_equal length) in H. rewrite split_length in H. discriminate.
Qed.

Lemma split_app_sep (sep : N) (a b : jsstring) :
  split sep (a ++ sep :: b) = split sep a ++ split sep b.
Proof.
  induction a as [| c a IH]; simpl.
  - by rewrite N.eqb_refl.
  - destruct (c =? sep)%N; [by rewrite IH |].
    rewrite IH. destruct (split sep a) as [| piece pieces] eqn:E; [| done].
    by apply split_nonempty in E.
Qed.

Lemma omap_app_entries (a b : jsstring) :
  entries (a ++ LF :: b) = entries a ++ entries b.
Proof. unfold entries. by rewrite split_app_sep, omap_app. Qed.

Lemma forEach_rejects_any_state (lines : list jsstring) (st1 st2 : ParseState) :
  (exists e, forEach lines st1 = inl e) -> exists e, forEach lines st2 = inl e.
Proof. rewrite !forEach_throws. done. Qed.

(** X5. Joining two texts by a line feed joins their records: the joined text
    is rejected when either part is, and otherwise its model continues the
    model of the first part with the calls of the second, so that its
    intersections are those of the first part followed by those of the
    second. *)
Theorem parseUpsetMatrix_append (name a b : jsstring) :
  parseUpsetMatrix name (onload (a ++ LF :: b)) =
  match parseUpsetMatrix name (onload a), parseUpsetMatrix name (onload b) with
  | Resolved fa, Resolved fb =>
      Resolved {| data := foldl (fun this call => addIntersection this call.1 call.2)
                            (data fa) (entries b);
                  fileName := name; status := 1 |}
  | _, _ => Rejected FormatError
  end
  /\ forall fa fb fab,
       parseUpsetMatrix name (onload a) = Resolved fa ->
       parseUpsetMatrix name (onload b) = Resolved fb ->
       parseUpsetMatrix name (onload (a ++ LF :: b)) = Resolved fab ->
       getIntersections (data fab)
       = getIntersections (data fa) ++ getIntersections (data fb).
Proof.
  set (st0 := {| ps_data := new_UpsetMatrixData; ps_warned := [] |}).
  assert (parseUpsetMatrix name (onload (a ++ LF :: b)) =
    match parseUpsetMatrix name (onload a), parseUpsetMatrix name (onload b) with
    | Resolved fa, Resolved fb =>
        Resolved {| data := foldl (fun this call => addIntersection this call.1 call.2)
                              (data fa) (entries b);
                    fileName := name; status := 1 |}
    | _, _ => Rejected FormatError
    end) as Heq.
  { unfold parseUpsetMatrix, parseText. fold st0.
    rewrite split_app_sep, forEach_app.
    destruct (forEach (split LF a) st0) as [ea | sa] eqn:Ha; [done |].
    destruct (forEach (split LF b) st0) as [eb | sb] eqn:Hb.
    - destruct (forEach_rejects_any_state _ st0 sa (ex_intro _ eb Hb)) as [e ->].
      done.
    - destruct (forEach (split LF b) sa) as [e | sab] eqn:Hab.
      + destruct (forEach_rejects_any_state _ sa st0 (ex_intro _ e Hab)) as [e' He'].
        congruence.
      + simpl. by rewrite (forEach_entries_fold _ _ _ Hab). }
  split; [exact Heq |].
  intros fa fb fab Ha Hb Hab.
  apply parse_resolved_data in Ha as ->. apply parse_resolved_data in Hb as ->.
  apply parse_resolved_data in Hab as ->. simpl.
  by rewrite !addIntersections_intersections, omap_app_entries, fmap_app.
Qed.

(** ** Line endings *)

Lemma trimEnd_snoc_ws (s : jsstring) (c : N) :
  isWhiteSpace c = true -> trimEnd (s ++ [c]) = trimEnd s.
Proof.
  intros Hc. unfold trimEnd. rewrite reverse_snoc. simpl. by rewrite Hc.
Qed.

Lemma trim_snoc_ws (s : jsstring) (c : N) :
  isWhiteSpace c = true -> trim (s ++ [c]) = trim s.
Proof.
  intros Hc. unfold trim. induction s as [| a s IH]; simpl.
  - by rewrite Hc.
  - destruct (isWhiteSpace a); [exact IH |].
    exact (trimEnd_snoc_ws (a :: s) c Hc).
Qed.

Lemma split_snoc (sep c : N) (s : jsstring) :
  c <> sep ->
  exists pieces piece,
    split sep s = pieces ++ [piece] /\ split sep (s ++ [c]) = pieces ++ [piece ++ [c]].
Proof.
  intros Hne. induction s as [| a s (pieces & piece & Hs & Hsc)]; simpl.
  - exists [], []. rewrite (proj2 (N.eqb_neq c sep) Hne). done.
  - rewrite Hs, Hsc. destruct (a =? sep)%N.
    + by exists ([] :: pieces), piece.
    + destruct pieces as [| p ps]; simpl.
      * by exists [], (a :: piece).
      * by exists ((a :: p) :: ps), piece.
Qed.

(** A line with a carriage return at its end does to the model what the line
    without it does; when one throws, so does the other. *)
Lemma parseLine_CR (st : ParseState) (line : jsstring) :
  outcome (parseLine st (line ++ [CR])) = outcome (parseLine st line)
  \/ ((exists e, parseLine st (line ++ [CR]) = inl e)
      /\ exists e, parseLine st line = inl e).
Proof.
  unfold parseLine. rewrite (trim_snoc_ws line CR eq_refl).
  case_bool_decide as Hblank; [by left |].
  assert (startsWith (line ++ [CR]) HASH = startsWith line HASH) as ->.
  { destruct line as [| a line]; [| done]. by destruct Hblank. }
  destruct (startsWith line HASH); [by left |].
  destruct (split_snoc TAB CR line) as (pieces & piece & -> & ->); [done |].
  rewrite !length_app. cbn [length].
  destruct pieces as [| f0 [| f1 pieces]]; cbn [length Nat.add Nat.eqb app nth].
  - right. eauto.
  - left. rewrite (trim_snoc_ws piece CR eq_refl).
    by destruct (isNaN (parseInt10 (trim piece))).
  - right. destruct pieces; simpl; eauto.
Qed.

Lemma forEach_CR (lines lines' : list jsstring) (st st' : ParseState) :
  Forall2 (fun l l' => l' = l \/ l' = l ++ [CR]) lines lines' ->
  ps_data st = ps_data st' ->
  match forEach lines st, forEach lines' st' with
  | inr s, inr s' => ps_data s = ps_data s'
  | inl _, inl _ => True
  | _, _ => False
  end.
Proof.
  intros Hl. revert st st'. induction Hl as [| l l' lines lines' Hl _ IH];
    intros st st' Hd; simpl; [done |].
  assert (match parseLine st l, parseLine st' l' with
          | inr s, inr s' => ps_data s = ps_data s'
          | inl _, inl _ => True
          | _, _ => False
          end) as Hstep.
  { pose proof (parseLine_outcome st st' l Hd) as Ho.
    destruct Hl as [-> | ->].
    - destruct (parseLine st l), (parseLine st' l); simpl in Ho; try done; congruence.
    - destruct (parseLine_CR st' l) as [Hc | [[e He] [e' He']]].
      + destruct (parseLine st l), (parseLine st' l), (parseLine st' (l ++ [CR]));
          simpl in Ho, Hc; try done; congruence.
      + rewrite He. rewrite He' in Ho. by destruct (parseLine st l). }
  destruct (parseLine st l) as [e | s], (parseLine st' l') as [e' | s']; try done.
  by apply IH.
Qed.

(** X3. Carriage returns before the line feeds change nothing: a text whose
    lines are those of another, some of them with a carriage return at the
    end, settles the promise in the same way, with the same model. *)
Theorem parseUpsetMatrix_CRLF (name result result' : jsstring) :
  Forall2 (fun l l' => l' = l \/ l' = l ++ [CR]) (split LF result) (split LF result') ->
  parseUpsetMatrix name (onload result') = parseUpsetMatrix name (onload result).
Proof.
  intros Hl. unfold parseUpsetMatrix, parseText.
  pose proof (forEach_CR _ _ {| ps_data := new_UpsetMatrixData; ps_warned := [] |}
                {| ps_data := new_UpsetMatrixData; ps_warned := [] |} Hl eq_refl) as H.
  destruct (forEach (split LF result) _), (forEach (split LF result') _); try done.
  by rewrite H.
Qed.

(** ** The model a parse delivers *)

Lemma addIntersections_sets (calls : list (jsstring * float)) :
  (list_to_set (getSets (addIntersections calls)) : gset jsstring) = components calls
  /\ NoDup (getSets (addIntersections calls)).
Proof.
  induction calls as [| call calls [IHset IHnodup]] using rev_ind.
  - split; [done | constructor].
  - rewrite addIntersections_snoc, components_snoc. split.
    + by rewrite addIntersection_elements, IHset.
    + by apply addIntersection_NoDup.
Qed.

Lemma elem_of_components (calls : list (jsstring * float)) (name : jsstring) :
  name ∈ components calls <->
  exists call, call ∈ calls /\ name ∈ split COMMA call.1.
Proof.
  unfold components. rewrite elem_of_union_list. split.
  - intros (X & HX & Hname). apply list_elem_of_fmap in HX as (call & -> & Hcall).
    exists call. split; [done |]. by apply elem_of_list_to_set in Hname.
  - intros (call & Hcall & Hname). exists (list_to_set (split COMMA call.1)).
    split; [| by apply elem_of_list_to_set].
    apply list_elem_of_fmap. by exists call.
Qed.

(** X6. In the model of a parse that resolves, the sets are exactly the names
    that [isSetInIntersection] finds in some intersection of the model, no set
    is listed twice, and there is no set exactly when there is no
    intersection: the chart of a parsed file is empty only if no line was
    accepted. *)
Theorem parseUpsetMatrix_sets_cover (name result : jsstring) (file : UpsetMatrixFile) :
  parseUpsetMatrix name (onload result) = Resolved file ->
  (forall setName,
     setName ∈ getSets (data file) <->
     exists i, i ∈ getIntersections (data file)
               /\ isSetInIntersection (data file) setName (set i) = true)
  /\ NoDup (getSets (data file))
  /\ (getSets (data file) = [] <-> getIntersections (data file) = []).
Proof.
  intros ->%parse_resolved_data. cbn [data].
  destruct (addIntersections_sets (entries result)) as [Hset Hnodup].
  assert (forall setName,
     setName ∈ getSets (addIntersections (entries result)) <->
     exists i, i ∈ getIntersections (addIntersections (entries result))
               /\ isSetInIntersection (addIntersections (entries result))
                    setName (set i) = true) as Hcover.
  { intros setName.
    rewrite <- (elem_of_list_to_set (C := gset jsstring)), Hset, elem_of_components.
    unfold isSetInIntersection, includes.
    split.
    - intros (call & Hcall & Hname). exists {| set := call.1; value := call.2 |}.
      rewrite addIntersections_intersections.
      split; [apply list_elem_of_fmap; by exists call |].
      by apply bool_decide_eq_true_2.
    - intros (i & Hi & Hname). rewrite addIntersections_intersections in Hi.
      apply list_elem_of_fmap in Hi as (call & -> & Hcall).
      exists call. split; [done |]. by apply bool_decide_eq_true_1 in Hname. }
  split; [exact Hcover |]. split; [exact Hnodup |].
  split.
  - intros Hs. destruct (getIntersections _) as [| i rest] eqn:Hi; [done |].
    exfalso. destruct (split COMMA (set i)) as [| c cs] eqn:Hc;
      [by apply split_nonempty in Hc |].
    assert (c ∈ getSets (addIntersections (entries result))) as Hin.
    { apply Hcover. exists i. split; [by left |].
      unfold isSetInIntersection, includes. rewrite Hc.
      apply bool_decide_eq_true_2. by left. }
    rewrite Hs in Hin. inversion Hin.
  - intros Hi. destruct (getSets _) as [| s ss] eqn:Hs; [done |].
    exfalso. destruct (proj1 (Hcover s)) as (i & Hin & _); [by left |].
    rewrite Hi in Hin. inversion Hin.
Qed.

Lemma entryOf_number (line : jsstring) (call : jsstring * float) :
  entryOf line = Some call -> is_nan call.2 = false.
Proof.
  unfold entryOf. destruct (skipped line); [done |].
  destruct (split TAB line) as [| f0 [| f1 [| f2 fields]]]; try done.
  destruct (isNaN (parseInt10 (trim f1))) eqn:E; [done |]. by intros [= <-].
Qed.

Lemma entries_numbers (result : jsstring) :
  Forall (fun call => is_nan call.2 = false) (entries result).
Proof.
  unfold entries. apply Forall_forall. intros call Hin.
  apply list_elem_of_omap in Hin as (line & _ & Hline).
  by apply (entryOf_number line).
Qed.

(** X7. For the model of a parse that resolves with at least one
    intersection, [getMaxIntersectionValue] is a number, it is the value of
    one of the intersections, and no intersection has a larger value. *)
Theorem parseUpsetMatrix_max (name result : jsstring) (file : UpsetMatrixFile) :
  parseUpsetMatrix name (onload result) = Resolved file ->
  getIntersections (data file) <> [] ->
  isNaN (getMaxIntersectionValue (data file)) = false
  /\ (exists i, i ∈ getIntersections (data file)
                /\ getMaxIntersectionValue (data file) = value i)
  /\ Forall (fun i => (value i <=? getMaxIntersectionValue (data file))%float = true)
       (getIntersections (data file)).
Proof.
  intros ->%parse_resolved_data. cbn [data]. intros Hne.
  pose proof (entries_numbers result) as Hnum.
  unfold getMaxIntersectionValue.
  change (intersections ?m) with (getIntersections m) in *.
  rewrite addIntersections_intersections in *.
  destruct (entries result) as [| call calls] eqn:Hcalls; [done |].
  change (length _ =? 0) with false. cbv iota. unfold Math_max.
  set (values := value <$> _).
  assert (Forall (fun v => is_nan v = false) values) as Hvals.
  { unfold values. rewrite <- list_fmap_compose. by apply Forall_fmap. }
  destruct (Math_max_from_spec values neg_infinity eq_refl Hvals)
    as (Hin & Hnan & _ & Hall).
  set (r := Math_max_from neg_infinity values) in *.
  assert (r ∈ values) as Hr.
  { destruct Hin as [Hr | Hr]; [| done].
    unfold values in *. cbn [fmap list_fmap] in *.
    apply Forall_cons in Hall as [H0 _]. apply Forall_cons in Hvals as [Hn0 _].
    rewrite Hr in H0. apply (neg_infinity_least _ Hn0) in H0.
    rewrite Hr, <- H0. by left. }
  split; [done |]. split.
  - apply list_elem_of_fmap in Hr as (i & -> & Hi). eauto.
  - apply Forall_fmap in Hall. apply Forall_fmap in Hvals.
    eapply Forall_impl; [apply Forall_and; split; [exact Hvals | exact Hall] |].
    intros i [Hn Hle]. simpl in *. by apply leb_key.
Qed.

(** ** The layout *)

Lemma Math_max_not_below (args : list float) (v : float) :
  v ∈ args -> (Math_max args <? v)%float = false.
Proof.
  intros Hin. destruct (Math_max args <? v)%float eqn:E; [| done].
  apply ltb_key in E as (Hr & Hv & Hlt). unfold Math_max in *.
  destruct (Forall_Exists_dec (fun x => is_nan x = false) (fun x => is_nan x = true)
              (fun x => match is_nan x as b return {b = false} + {b = true} with
                        | true => right eq_refl
                        | false => left eq_refl
                        end) args) as [Hnum | Hnan].
  - destruct (Math_max_from_spec args neg_infinity eq_refl Hnum) as (_ & _ & _ & Hall).
    apply (proj1 (Forall_forall _ _) Hall) in Hin. key_order.
  - rewrite (Math_max_from_nan args neg_infinity Hnan) in Hr. discriminate.
Qed.

Lemma Math_min_not_above_any (args : list float) (v : float) :
  v ∈ args -> (v <? Math_min args)%float = false.
Proof.
  intros Hin. destruct (v <? Math_min args)%float eqn:E; [| done].
  apply ltb_key in E as (Hv & Hr & Hlt). unfold Math_min in *.
  destruct (Math_min_from_bound args infinity eq_refl) as [Hnan | (_ & _ & Hall)].
  - congruence.
  - apply (proj1 (Forall_forall _ _) Hall) in Hin. key_order.
Qed.

Lemma Math_min_from_in (args : list float) (lowest : float) :
  is_nan (Math_min_from lowest args) = true
  \/ Math_min_from lowest args = lowest
  \/ Math_min_from lowest args ∈ args.
Proof.
  revert lowest. induction args as [| number rest IH]; intros lowest; simpl.
  - right. by left.
  - destruct (is_nan number); [by left |].
    set (l2 := if (number <? _)%float then number else _).
    assert (l2 = lowest \/ l2 = number) as Hl2.
    { unfold l2. destruct (is_neg_zero number && is_pos_zero lowest);
        destruct (number <? _)%float; auto. }
    destruct (IH l2) as [H | [H | H]]; [by left | | right; right; by right].
    right. rewrite H. destruct Hl2 as [-> | ->]; [by left | right; by left].
Qed.

Section LayoutProperties.

Variable scaleLinear : float * float -> float * float -> float -> float.
Variable getComputedTextLength : float -> float -> float.

Local Abbreviation scene := (render_scene scaleLinear getComputedTextLength).

(** X8. Whatever the width of the svg, the left margin is not below 70 and
    the right margin not below 60; the top margin is 30 and the bottom one
    10. The chart group is translated by the left and the top margin. *)
Theorem render_margins (this : UpsetPlot) :
  (Margin.left (margin (geometry this)) <? 70)%float = false
  /\ (Margin.right (margin (geometry this)) <? 60)%float = false
  /\ Margin.top (margin (geometry this)) = 30%float
  /\ Margin.bottom (margin (geometry this)) = 10%float
  /\ forall c, scene this = Some c ->
       translate_x c = Margin.left (margin (geometry this))
       /\ translate_y c = 30%float.
Proof.
  split; [apply Math_max_not_below; by left |].
  split; [apply Math_max_not_below; by left |].
  split; [done |]. split; [done |].
  intros c Hc. unfold render_scene in Hc.
  destruct (_ || _); [discriminate |]. by injection Hc as <-.
Qed.

(** X9. The font size of the labels never exceeds 12, nor the font size asked
    for; and it is not below 8 when the font size asked for is not. *)
Theorem render_labelFontSize (this : UpsetPlot) :
  (12 <? labelFontSize (geometry this))%float = false
  /\ (Dimensions.fontSize (dimensions this) <? labelFontSize (geometry this))%float = false
  /\ ((Dimensions.fontSize (dimensions this) <? 8)%float = false ->
      (labelFontSize (geometry this) <? 8)%float = false).
Proof.
  split; [apply Math_min_not_above_any; by left |].
  split; [apply Math_min_not_above_any; right; by left |].
  intros Hhint. cbn [geometry labelFontSize]. unfold Math_min.
  set (m := Math_max _).
  pose proof (Math_min_from_in
                [12%float; Dimensions.fontSize (dimensions this); m] infinity) as Hr.
  set (r := Math_min_from infinity _) in *.
  destruct Hr as [Hnan | [Hr | Hin]].
  - destruct (r <? 8)%float eqn:E; [| done].
    apply ltb_key in E as (E & _). congruence.
  - by rewrite Hr.
  - apply elem_of_cons in Hin as [Hr | Hin]; [by rewrite Hr |].
    apply elem_of_cons in Hin as [Hr | Hin]; [by rewrite Hr |].
    apply list_elem_of_singleton in Hin. rewrite Hin.
    apply Math_max_not_below. by left.
Qed.

End LayoutProperties.

(** ** What is drawn *)

Lemma fmap_indexed_fst_snd {A B} (h : nat -> A -> B) (l : list A) :
  (fun p : nat * A => h p.1 p.2) <$> indexed l = imap h l.
Proof.
  unfold indexed. revert h. induction l as [| x l IH]; intros h; simpl; [done |].
  f_equal. rewrite <- (IH (h ∘ S)). rewrite !fmap_imap. done.
Qed.

Section SceneProperties.

Variable scaleLinear : float * float -> float * float -> float -> float.
Variable getComputedTextLength : float -> float -> float.

Local Abbreviation scene := (render_scene scaleLinear getComputedTextLength).

Local Opaque geometry.

(** The children of the container, from the equation that it is drawn. *)
Ltac drawn Hc :=
  unfold render_scene in Hc;
  destruct (_ || _); [discriminate |];
  injection Hc as <-; cbv zeta.

(** Lists of data read off the children: the classes that do not carry them
    contribute nothing. *)
Ltac read_children :=
  repeat first
    [ progress cbn [children omap list_omap app]
    | rewrite omap_app
    | match goal with
      | |- context [omap ?f (?g <$> ?l)] =>
          rewrite (omap_fmap_None f g l)
            by (intros [? ?]; try destruct (andb _ _);
                try destruct (PrimFloat.ltb _ _); done)
      end ];
  rewrite ?app_nil_r.

(** X10. What [render] draws follows the model: one set label per set, in the
    order of the sets, and one row group, one value bar and one event surface
    per intersection, in the order of the intersections. *)
Theorem render_follows_model (this : UpsetPlot) (c : Container) :
  scene this = Some c ->
  setLabelsOf c = getSets (upsetMatrix this)
  /\ (rowsOf c).*1 = getIntersections (upsetMatrix this)
  /\ barsOf c = getIntersections (upsetMatrix this)
  /\ (eventRectsOf c).*1.*1.*1 = getIntersections (upsetMatrix this).
Proof.
  intros Hc. drawn Hc.
  unfold setLabelsOf, rowsOf, barsOf, eventRectsOf.
  repeat split; read_children.
  - rewrite <- (list_fmap_id (getSets (upsetMatrix this))) at 2.
    rewrite <- (fmap_indexed_snd id). apply omap_fmap_Some.
    intros [? ?]. by destruct (andb _ _).
  - rewrite (omap_fmap_Some _ _
      (fun p => (p.2, (label_height (geometry this)
                       + Number_of_nat p.1 * cell_height (geometry this))%float)))
      by (by intros [? ?]).
    rewrite <- list_fmap_compose.
    rewrite <- (list_fmap_id (getIntersections (upsetMatrix this))) at 2.
    by rewrite <- (fmap_indexed_snd id).
  - rewrite <- (list_fmap_id (getIntersections (upsetMatrix this))) at 2.
    rewrite <- (fmap_indexed_snd id). apply omap_fmap_Some. by intros [? ?].
  - rewrite (omap_fmap_Some _ _
      (fun p => (p.2, (label_height (geometry this)
                       + Number_of_nat p.1 * cell_height (geometry this))%float,
                 width (geometry this), cell_height (geometry this))))
      by (by intros [? ?]).
    rewrite <- !list_fmap_compose.
    rewrite <- (list_fmap_id (getIntersections (upsetMatrix this))) at 2.
    by rewrite <- (fmap_indexed_snd id).
Qed.

(** X11. The event surface of a row lies on the row: the surfaces drawn are,
    row by row, the row's datum at the row's vertical offset, as wide as the
    effective chart width and as high as a cell; row [i] is offset by the
    label height plus [i] cell heights. *)
Theorem render_event_surfaces (this : UpsetPlot) (c : Container) :
  scene this = Some c ->
  eventRectsOf c
  = (fun row => (row.1, row.2, width (geometry this), cell_height (geometry this)))
    <$> rowsOf c
  /\ rowsOf c
     = imap (fun i d =>
               (d, (label_height (geometry this)
                    + Number_of_nat i * cell_height (geometry this))%float))
         (getIntersections (upsetMatrix this)).
Proof.
  intros Hc. drawn Hc. unfold rowsOf, eventRectsOf.
  split; read_children.
  - rewrite (omap_fmap_Some _ _
      (fun p => (p.2, (label_height (geometry this)
                       + Number_of_nat p.1 * cell_height (geometry this))%float,
                 width (geometry this), cell_height (geometry this))))
      by (by intros [? ?]).
    rewrite (omap_fmap_Some _ _
      (fun p => (p.2, (label_height (geometry this)
                       + Number_of_nat p.1 * cell_height (geometry this))%float)))
      by (by intros [? ?]).
    by rewrite <- list_fmap_compose.
  - rewrite (omap_fmap_Some _ _
      (fun p => (p.2, (label_height (geometry this)
                       + Number_of_nat p.1 * cell_height (geometry this))%float)))
      by (by intros [? ?]).
    apply (fmap_indexed_fst_snd
             (fun i d => (d, (label_height (geometry this)
                              + Number_of_nat i * cell_height (geometry this))%float))).
Qed.

End SceneProperties.

Ltac all_children :=
  repeat first [ apply Forall_nil_2
               | apply Forall_cons; split
               | apply Forall_app; split ];
  try (apply Forall_fmap, Forall_true; intros [? ?]; unfold compose; cbv beta iota).

Section DotMatrixProperties.

Variable scaleLinear : float * float -> float * float -> float -> float.
Variable getComputedTextLength : float -> float -> float.

Local Abbreviation scene := (render_scene scaleLinear getComputedTextLength).

Local Opaque geometry.

(** X12. The dot matrix shows the membership: in every row drawn there is one
    circle per set, in the order of the sets, bound to the row's intersection,
    and a circle is grey ([#807A79]) exactly when its set is not among the
    comma-split components of the row's key, whatever is selected or
    hovered. *)
Theorem render_circles_show_membership
    (this : UpsetPlot) (c : Container)
    (d : Intersection) (ty : float) (rects : list GridRect) (circles : list GridCircle) :
  scene this = Some c ->
  g_gridRow d ty rects circles ∈ children c ->
  (fun ci => cell_set (circle_datum ci)) <$> circles = getSets (upsetMatrix this)
  /\ Forall (fun ci =>
               cell_intersection (circle_datum ci) = d
               /\ (circle_fill ci = "#807A79"%string <->
                   isSetInIntersection (upsetMatrix this)
                     (cell_set (circle_datum ci)) (set d) = false))
       circles.
Proof.
  intros Hc.
  assert (Forall (fun e =>
            match e with
            | g_gridRow d _ _ circles =>
                (fun ci => cell_set (circle_datum ci)) <$> circles
                = getSets (upsetMatrix this)
                /\ Forall (fun ci =>
                     cell_intersection (circle_datum ci) = d
                     /\ (circle_fill ci = "#807A79"%string <->
                         isSetInIntersection (upsetMatrix this)
                           (cell_set (circle_datum ci)) (set d) = false))
                   circles
            | _ => True
            end) (children c)) as Hall.
  { unfold render_scene in Hc.
    destruct (_ || _); [discriminate |]. injection Hc as <-.
    cbv zeta. cbn [children]. all_children; try done.
    - by destruct (andb _ _).
    - split.
      + rewrite <- !list_fmap_compose.
        rewrite <- (list_fmap_id (getSets (upsetMatrix this))) at 2.
        rewrite <- (fmap_indexed_snd id). apply list_fmap_ext. by intros ? [? ?] _.
      + apply Forall_fmap, Forall_fmap, Forall_true. intros [j s].
        cbn [compose circle_fill circle_datum cell_set cell_intersection].
        split; [done |].
        destruct (includes _ _); destruct (isSetInIntersection _ _ _);
          try destruct (hovered_is _ _); split; (done || discriminate).
    - by destruct (PrimFloat.ltb _ _). }
  intros Hin. exact (proj1 (Forall_forall _ _) Hall _ Hin).
Qed.

End DotMatrixProperties.

(** ** The life of a chart *)

Section LifeProperties.

Variable scaleLinear : float * float -> float * float -> float -> float.
Variable getComputedTextLength : float -> float -> float.

Local Abbreviation scene := (render_scene scaleLinear getComputedTextLength).
Local Abbreviation render_ := (render scaleLinear getComputedTextLength).
Local Abbreviation click_ := (click scaleLinear getComputedTextLength).
Local Abbreviation handle_ := (handle scaleLinear getComputedTextLength).
Local Abbreviation handleAll_ := (handleAll scaleLinear getComputedTextLength).

Local Abbreviation upToDate_ := (upToDate scaleLinear getComputedTextLength).

Lemma render_upToDate (this : UpsetPlot) : upToDate_ (render_ this).
Proof. reflexivity. Qed.

Lemma updateHighlighting_upToDate (this : UpsetPlot) (hovered : option jsstring) :
  upToDate_ this ->
  upToDate_ (updateHighlighting (with_hoveredIntersection this hovered)).
Proof.
  intros Hup. unfold upToDate.
  rewrite (updateHighlighting_scene scaleLinear getComputedTextLength this
             (with_hoveredIntersection this hovered)); done.
Qed.

Lemma with_hoveredIntersection_same (this : UpsetPlot) :
  with_hoveredIntersection this (hoveredIntersection this) = this.
Proof. by destruct this. Qed.

Lemma handle_upToDate (this : UpsetPlot) (ev : Event) :
  upToDate_ this -> upToDate_ (handle_ this ev).
Proof.
  intros Hup. destruct ev as [d | d | | | | l | cb]; cbn [handle].
  - unfold click. destruct (onIntersectionClick this); [done |].
    apply render_upToDate.
  - unfold mouseover. case_bool_decide.
    + by apply updateHighlighting_upToDate.
    + cbn [hoveredIntersection with_hoveredIntersection] in H.
      by rewrite <- H, with_hoveredIntersection_same.
  - by apply updateHighlighting_upToDate.
  - done.
  - apply render_upToDate.
  - apply render_upToDate.
  - exact Hup.
Qed.

(** X13. From the first [plot()] on, whatever events and calls follow (clicks,
    pointer moves, new selections, a click callback), what is drawn is always
    what a full [render] of the present state would draw: the recolouring on
    hover never leaves a stale colour behind. *)
Theorem handleAll_upToDate (this : UpsetPlot) (evs : list Event) :
  svg (handleAll_ (plot scaleLinear getComputedTextLength this) evs)
  = scene (handleAll_ (plot scaleLinear getComputedTextLength this) evs).
Proof.
  unfold handleAll.
  assert (upToDate_ (plot scaleLinear getComputedTextLength this)) as Hup
    by apply render_upToDate.
  revert Hup. generalize (plot scaleLinear getComputedTextLength this).
  induction evs as [| ev evs IH]; intros st Hup; [exact Hup |].
  apply IH. by apply handle_upToDate.
Qed.

Lemma handle_model (this : UpsetPlot) (ev : Event) :
  upsetMatrix (handle_ this ev) = upsetMatrix this
  /\ dimensions (handle_ this ev) = dimensions this.
Proof.
  destruct ev; cbn [handle]; try done.
  - unfold click. by destruct (onIntersectionClick this).
  - unfold mouseover. by case_bool_decide.
Qed.

(** X14. No event and no call changes the model or the dimensions of a chart:
    they are those it was constructed with. *)
Theorem handleAll_keeps_model (this : UpsetPlot) (evs : list Event) :
  upsetMatrix (handleAll_ this evs) = upsetMatrix this
  /\ dimensions (handleAll_ this evs) = dimensions this.
Proof.
  unfold handleAll. revert this.
  induction evs as [| ev evs IH]; intros this; [done |]. simpl.
  destruct (IH (handle_ this ev)) as [-> ->]. apply handle_model.
Qed.

(** X15. With no click callback, a click on a row changes the membership of
    its key in the selection, and of no other key. *)
Theorem click_toggles_membership (this : UpsetPlot) (d : Intersection) (key : jsstring) :
  onIntersectionClick this = None ->
  key ∈ selectedIntersections (click_ this d).1 <->
  if decide (key = set d) then set d ∉ selectedIntersections this
  else key ∈ selectedIntersections this.
Proof.
  intros Hcb. unfold click. rewrite Hcb.
  cbn [fst render with_svg with_selectedIntersections selectedIntersections].
  unfold includes. case_bool_decide as Hin.
  - rewrite list_elem_of_filter. destruct (decide (key = set d)) as [-> | Hne]; tauto.
  - rewrite elem_of_app, list_elem_of_singleton.
    destruct (decide (key = set d)) as [-> | Hne]; tauto.
Qed.

(** X16. A selection without duplicates stays without duplicates under
    clicks, with or without a click callback. *)
Theorem click_keeps_NoDup (this : UpsetPlot) (d : Intersection) :
  NoDup (selectedIntersections this) ->
  NoDup (selectedIntersections (click_ this d).1).
Proof.
  intros Hnd. unfold click. destruct (onIntersectionClick this); [done |].
  cbn [fst render with_svg with_selectedIntersections selectedIntersections].
  unfold includes. case_bool_decide as Hin.
  - by apply NoDup_filter.
  - apply NoDup_app. split; [done |]. split; [| apply NoDup_singleton].
    intros k Hk Hk'. apply list_elem_of_singleton in Hk'. by subst.
Qed.

(** X17. With a click callback registered, no click changes the chart: the
    selection and the drawing stay as they are, and the callback is given the
    key of the row. *)
Theorem click_with_callback (this : UpsetPlot) (cb : Callback) (ds : list Intersection) :
  onIntersectionClick this = Some cb ->
  foldl (fun st d => (click_ st d).1) this ds = this
  /\ forall d, (click_ this d).2 = Some (cb, set d).
Proof.
  intros Hcb. split.
  - induction ds as [| d ds IH]; [done |]. simpl.
    unfold click at 2. by rewrite Hcb.
  - intros d. unfold click. by rewrite Hcb.
Qed.

(** X18. Entering a row twice is entering it once: the second [mouseover] on
    the same row finds the hovered key unchanged and repaints nothing. *)
Theorem mouseover_idempotent (this : UpsetPlot) (d : Intersection) :
  mouseover (mouseover this d) d = mouseover this d.
Proof.
  assert (hoveredIntersection (mouseover this d) = Some (set d)) as Hh.
  { unfold mouseover. by case_bool_decide. }
  unfold mouseover at 1. cbn [hoveredIntersection with_hoveredIntersection].
  rewrite bool_decide_eq_false_2 by (rewrite Hh; tauto).
  rewrite <- Hh. apply with_hoveredIntersection_same.
Qed.

(** X19. On a chart that is drawn for its present state and has no row
    hovered, entering a row and leaving it again puts everything back: the
    state and every colour are as before. *)
Theorem mouseleave_undoes_mouseover (this : UpsetPlot) (d : Intersection) :
  svg this = scene this ->
  hoveredIntersection this = None ->
  mouseleave (mouseover this d) = this.
Proof.
  intros Hup Hh.
  pose proof (updateHighlighting_upToDate this (Some (set d)) Hup) as Hover.
  assert (mouseover this d
          = updateHighlighting (with_hoveredIntersection this (Some (set d)))) as ->.
  { unfold mouseover. rewrite bool_decide_eq_true_2; [done |].
    cbn [hoveredIntersection with_hoveredIntersection]. by rewrite Hh. }
  set (over := updateHighlighting _) in *.
  pose proof (updateHighlighting_upToDate over None Hover) as Hleave.
  unfold mouseleave. unfold upToDate in Hleave.
  set (left_ := updateHighlighting (with_hoveredIntersection over None)) in *.
  assert (scene left_ = scene this) as Hscene.
  { unfold render_scene. cbn. by rewrite Hh. }
  destruct this as [s dm um sel hov cb]. cbn in Hh, Hup. subst hov.
  rewrite Hscene in Hleave.
  transitivity {| svg := svg left_; dimensions := dm; upsetMatrix := um;
                  selectedIntersections := sel; hoveredIntersection := None;
                  onIntersectionClick := cb |}; [done |].
  by rewrite Hleave, Hup.
Qed.

End LifeProperties.

(** ** Growing the model *)

Lemma Math_max_from_app (l l' : list float) (highest : float) :
  Forall (fun v => is_nan v = false) l ->
  Math_max_from highest (l ++ l') = Math_max_from (Math_max_from highest l) l'.
Proof.
  revert highest. induction l as [| number rest IH]; intros highest Hl; [done |].
  apply Forall_cons in Hl as [Hn Hrest]. simpl. rewrite Hn. by apply IH.
Qed.

(** X20. Adding an intersection with a number as its value to a model that has
    intersections, all with numbers as values, never lowers the maximum: the
    new maximum is the old one or the value added, and both are at most
    it. *)
Theorem addIntersection_max (this : UpsetMatrixData) (set_ : jsstring) (value_ : float) :
  getIntersections this <> [] ->
  Forall (fun i => isNaN (value i) = false) (getIntersections this) ->
  isNaN value_ = false ->
  let before := getMaxIntersectionValue this in
  let after := getMaxIntersectionValue (addIntersection this set_ value_) in
  (after = before \/ after = value_)
  /\ (before <=? after)%float = true
  /\ (value_ <=? after)%float = true.
Proof.
  intros Hne Hnum Hv before after.
  assert (Forall (fun v => is_nan v = false) (value <$> getIntersections this)) as Hvals
    by (by apply Forall_fmap).
  assert (before = Math_max_from neg_infinity (value <$> getIntersections this)) as Hb.
  { unfold before, getMaxIntersectionValue, getIntersections in *.
    by destruct (intersections this). }
  assert (after = Math_max_from before [value_]) as Ha.
  { unfold after, getMaxIntersectionValue.
    change (intersections ?m) with (getIntersections m).
    rewrite addIntersection_intersections, length_app, fmap_app. cbn [length].
    rewrite Nat.add_1_r. cbn [Nat.eqb]. unfold Math_max.
    by rewrite Math_max_from_app, Hb. }
  assert (is_nan before = false) as Hbn.
  { rewrite Hb. by destruct (Math_max_from_spec _ neg_infinity eq_refl Hvals) as (_ & ? & _). }
  destruct (Math_max_step before value_ [] Hbn Hv) as (h & Hstep & Hsrc & Hhn & Hle1 & Hle2).
  change (Math_max_from h []) with h in Hstep. rewrite <- Ha in Hstep. subst h.
  split; [exact Hsrc |]. split; by apply leb_key.
Qed.

(** ** The keys of a parsed model *)

Lemma trimStart_app (s t : jsstring) :
  trimStart s <> [] -> trimStart (s ++ t) = trimStart s ++ t.
Proof.
  induction s as [| a s IH]; simpl; [done |].
  destruct (isWhiteSpace a); [exact IH | done].
Qed.

Lemma trimStart_all_ws (s t : jsstring) :
  trimStart s = [] -> trimStart (s ++ t) = trimStart t.
Proof.
  induction s as [| a s IH]; simpl; [done |].
  destruct (isWhiteSpace a); [exact IH | done].
Qed.

Lemma trimStart_idempotent (s : jsstring) : trimStart (trimStart s) = trimStart s.
Proof.
  induction s as [| a s IH]; simpl; [done |].
  destruct (isWhiteSpace a) eqn:E; [exact IH |]. simpl. by rewrite E.
Qed.

Lemma trimEnd_idempotent (s : jsstring) : trimEnd (trimEnd s) = trimEnd s.
Proof. unfold trimEnd. by rewrite reverse_involutive, trimStart_idempotent. Qed.

Lemma trimEnd_cons (a : N) (s : jsstring) :
  isWhiteSpace a = false -> trimEnd (a :: s) = a :: trimEnd s.
Proof.
  intros Ha. unfold trimEnd. rewrite reverse_cons.
  destruct (trimStart (reverse s)) as [| b r] eqn:E.
  - rewrite (trimStart_all_ws _ _ E). simpl. by rewrite Ha.
  - rewrite trimStart_app by (by rewrite E). rewrite E.
    by rewrite reverse_app.
Qed.

Lemma trim_idempotent (s : jsstring) : trim (trim s) = trim s.
Proof.
  unfold trim. induction s as [| a s IH]; [done |]. simpl.
  destruct (isWhiteSpace a) eqn:E; [exact IH |].
  rewrite (trimEnd_cons a s E). simpl. rewrite E.
  by rewrite (trimEnd_cons a _ E), trimEnd_idempotent.
Qed.

Lemma entryOf_trimmed (line : jsstring) (call : jsstring * float) :
  entryOf line = Some call -> trim call.1 = call.1.
Proof.
  unfold entryOf. destruct (skipped line); [done |].
  destruct (split TAB line) as [| f0 [| f1 [| f2 fields]]]; try done.
  destruct (isNaN (parseInt10 (trim f1))); [done |]. intros [= <-].
  apply trim_idempotent.
Qed.

(** X21. The keys of a parsed model are trimmed: no key starts or ends with
    white space, so trimming a key again gives the key. (The names inside a
    key are split on commas as they stand.) *)
Theorem parseUpsetMatrix_keys_trimmed (name result : jsstring) (file : UpsetMatrixFile) :
  parseUpsetMatrix name (onload result) = Resolved file ->
  Forall (fun i => trim (set i) = set i) (getIntersections (data file)).
Proof.
  intros ->%parse_resolved_data. cbn [data].
  rewrite addIntersections_intersections. apply Forall_fmap, Forall_forall.
  intros call Hin. unfold entries in Hin.
  apply list_elem_of_omap in Hin as (line & _ & Hline).
  by apply (entryOf_trimmed line).
Qed.

(** ** What follows the count on a line *)

Lemma digitPrefix_app_nondigit (s rest : jsstring) (c : N) :
  digitValue c = None -> digitPrefix (s ++ c :: rest) = digitPrefix s.
Proof.
  intros Hc. induction s as [| a s IH]; simpl; [by rewrite Hc |].
  destruct (digitValue a); [by rewrite IH | done].
Qed.

(** [parseInt] stops at the first code unit that is not a digit. *)
Lemma parseInt10_app_nondigit (s rest : jsstring) (c : N) :
  digitValue c = None ->
  isNaN (parseInt10 s) = false ->
  parseInt10 (s ++ c :: rest) = parseInt10 s.
Proof.
  intros Hc. unfold parseInt10.
  destruct (trimStart s) as [| a S_] eqn:Htrim; [done |].
  rewrite (trimStart_app s (c :: rest)) by (by rewrite Htrim). rewrite Htrim.
  cbn [startsWith app].
  destruct ((a =? PLUS)%N || (a =? MINUS)%N).
  - change (drop 1 (a :: S_ ++ c :: rest)) with (S_ ++ c :: rest).
    change (drop 1 (a :: S_)) with S_.
    by rewrite digitPrefix_app_nondigit.
  - rewrite app_comm_cons. by rewrite digitPrefix_app_nondigit.
Qed.

Lemma isWhiteSpace_not_digit (c : N) :
  isWhiteSpace c = true -> digitValue c = None.
Proof.
  unfold isWhiteSpace, digitValue. intros Hws.
  destruct ((48 <=? c)%N && (c <=? 57)%N) eqn:Hd; [| done].
  apply andb_prop in Hd as [H1%N.leb_le H2%N.leb_le].
  repeat (apply orb_prop in Hws as [Hws | Hws]);
    repeat match goal with
           | H : andb _ _ = true |- _ => apply andb_prop in H as [? ?]
           | H : (_ <=? _)%N = true |- _ => apply N.leb_le in H
           | H : (_ =? _)%N = true |- _ => apply N.eqb_eq in H
           end; lia.
Qed.

Lemma trimStart_trailing (s : jsstring) :
  exists ws, Forall (fun c => isWhiteSpace c = true) ws
             /\ reverse s = ws ++ trimStart (reverse s).
Proof.
  generalize (reverse s). intros t. induction t as [| a t (ws & Hws & Ht)]; simpl.
  - by exists [].
  - destruct (isWhiteSpace a) eqn:E.
    + exists (a :: ws). split; [by constructor |]. simpl. by f_equal.
    + by exists [].
Qed.

(** A string is what [trimEnd] leaves of it, followed by white space. *)
Lemma trimEnd_trailing (s : jsstring) :
  exists ws, Forall (fun c => isWhiteSpace c = true) ws /\ s = trimEnd s ++ ws.
Proof.
  destruct (trimStart_trailing s) as (ws & Hws & Hs).
  exists (reverse ws). split; [by apply Forall_reverse |].
  unfold trimEnd. rewrite <- reverse_app, <- Hs. by rewrite reverse_involutive.
Qed.

Lemma digitPrefix_app_ws (s ws : jsstring) :
  Forall (fun c => isWhiteSpace c = true) ws -> digitPrefix (s ++ ws) = digitPrefix s.
Proof.
  intros Hws. destruct ws as [| c ws]; [by rewrite app_nil_r |].
  apply digitPrefix_app_nondigit, isWhiteSpace_not_digit.
  by apply Forall_cons in Hws as [? _].
Qed.

Lemma digitPrefix_trimEnd (s : jsstring) : digitPrefix (trimEnd s) = digitPrefix s.
Proof.
  destruct (trimEnd_trailing s) as (ws & Hws & Hs).
  rewrite Hs at 2. by rewrite digitPrefix_app_ws.
Qed.

(** The [trim] before [parseInt] changes nothing. *)
Lemma parseInt10_trim (s : jsstring) : parseInt10 (trim s) = parseInt10 s.
Proof.
  unfold parseInt10, trim.
  destruct (trimStart s) as [| a S_] eqn:Htrim; [done |].
  assert (isWhiteSpace a = false) as Ha.
  { destruct s as [| b s]; [done |]. revert Htrim. clear.
    induction (b :: s) as [| x l IH]; simpl; [done |].
    destruct (isWhiteSpace x) eqn:E; [exact IH | by intros [= <- _]]. }
  rewrite (trimEnd_cons a S_ Ha). simpl. rewrite Ha.
  cbn [startsWith].
  destruct ((a =? PLUS)%N || (a =? MINUS)%N).
  - change (drop 1 (a :: trimEnd S_)) with (trimEnd S_).
    change (drop 1 (a :: S_)) with S_. by rewrite digitPrefix_trimEnd.
  - rewrite <- (trimEnd_cons a S_ Ha). by rewrite digitPrefix_trimEnd.
Qed.

Lemma trim_nonempty_app (s t : jsstring) : trim s <> [] -> trim (s ++ t) <> [].
Proof.
  unfold trim. intros Hs.
  destruct (trimStart s) as [| a S_] eqn:Htrim; [done |].
  assert (isWhiteSpace a = false) as Ha.
  { revert Htrim. clear. induction s as [| x l IH]; simpl; [done |].
    destruct (isWhiteSpace x) eqn:E; [exact IH | by intros [= <- _]]. }
  rewrite trimStart_app by (by rewrite Htrim). rewrite Htrim. simpl.
  by rewrite (trimEnd_cons a _ Ha).
Qed.

Lemma split_app_last (sep : N) (s t : jsstring) :
  sep ∉ t ->
  exists pieces piece,
    split sep s = pieces ++ [piece] /\ split sep (s ++ t) = pieces ++ [piece ++ t].
Proof.
  intros Hsep. induction s as [| a s (pieces & piece & Hs & Hst)]; simpl.
  - exists [], []. split; [done |]. simpl.
    induction t as [| c t IH]; [done |]. simpl.
    apply not_elem_of_cons in Hsep as [Hc Ht].
    rewrite (proj2 (N.eqb_neq c sep) (not_eq_sym Hc)). by rewrite (IH Ht).
  - rewrite Hs, Hst. destruct (a =? sep)%N.
    + by exists ([] :: pieces), piece.
    + destruct pieces as [| p ps]; simpl.
      * by exists [], (a :: piece).
      * by exists ((a :: p) :: ps), piece.
Qed.

(** A line that gives an entry gives the same entry with more text after its
    count, when that text holds no tab and does not start with a digit. *)
Lemma parseLine_tail (st : ParseState) (line rest : jsstring) (c : N)
    (call : jsstring * float) :
  entryOf line = Some call ->
  digitValue c = None ->
  TAB ∉ c :: rest ->
  parseLine st (line ++ c :: rest) = parseLine st line.
Proof.
  unfold entryOf, skipped, parseLine. intros Hentry Hc Htab.
  case_bool_decide as Hblank; [done |]. cbn [orb] in Hentry.
  rewrite bool_decide_eq_false_2 by (by apply trim_nonempty_app).
  assert (startsWith (line ++ c :: rest) HASH = startsWith line HASH) as ->.
  { destruct line as [| a line]; [by destruct Hblank | done]. }
  destruct (startsWith line HASH); [done |].
  destruct (split_app_last TAB line (c :: rest) Htab) as (pieces & piece & Hs & Hst).
  rewrite Hs in Hentry |- *. rewrite Hst.
  destruct pieces as [| f0 [| f1 pieces]]; try done; [| by destruct pieces].
  cbn [app length Nat.eqb nth] in *.
  destruct (isNaN (parseInt10 (trim piece))) eqn:Hnum; [done |].
  rewrite parseInt10_trim in Hnum.
  by rewrite !parseInt10_trim, (parseInt10_app_nondigit piece rest c Hc Hnum), Hnum.
Qed.

(** X22. What follows the count on a line is not read: text without a tab that
    begins with anything but a digit can be put after a line that gives an
    entry, and the parse settles as before, with the same model. So a count
    written [12.5] or [12abc] is read as 12. *)
Theorem parseUpsetMatrix_ignores_tail
    (name result result' : jsstring) (before after : list jsstring)
    (line rest : jsstring) (c : N) (call : jsstring * float) :
  split LF result = before ++ line :: after ->
  split LF result' = before ++ (line ++ c :: rest) :: after ->
  entryOf line = Some call ->
  digitValue c = None ->
  TAB ∉ c :: rest ->
  parseUpsetMatrix name (onload result') = parseUpsetMatrix name (onload result).
Proof.
  intros Hlines Hlines' Hentry Hc Htab. unfold parseUpsetMatrix, parseText.
  rewrite Hlines, Hlines', !forEach_app.
  destruct (forEach before _) as [e | st]; [done |].
  simpl. by rewrite (parseLine_tail st line rest c call Hentry Hc Htab).
Qed.

(** ** Hovering and the selection *)

Lemma indexed_lookup {A} (l : list A) (k i : nat) (d : A) :
  indexed l !! k = Some (i, d) -> d ∈ l.
Proof.
  unfold indexed. rewrite list_lookup_imap.
  destruct (l !! k) as [x |] eqn:Hx; [| done]. intros [= _ <-].
  by apply list_elem_of_lookup_2 in Hx.
Qed.

Lemma geometry_hovered (this : UpsetPlot) (hovered : option jsstring) :
  geometry (with_hoveredIntersection this hovered) = geometry this.
Proof. reflexivity. Qed.

Section HoverProperties.

Variable scaleLinear : float * float -> float * float -> float -> float.
Variable getComputedTextLength : float -> float -> float.

Local Abbreviation scene := (render_scene scaleLinear getComputedTextLength).

Local Opaque geometry.

(** X23. A selected row does not show the hover, and a hovered key that is the
    key of no row shows nowhere: when every row with the key is selected, the
    chart hovered at the key is drawn as the chart with nothing hovered. *)
Theorem render_hover_hidden (this : UpsetPlot) (key : jsstring) :
  (forall i, i ∈ getIntersections (upsetMatrix this) -> set i = key ->
             key ∈ selectedIntersections this) ->
  scene (with_hoveredIntersection this (Some key))
  = scene (with_hoveredIntersection this None).
Proof.
  intros Hsel.
  assert (forall d : Intersection,
            d ∈ getIntersections (upsetMatrix this) ->
            includes (selectedIntersections this) (set d) = false ->
            hovered_is (Some key) (set d) = hovered_is None (set d)) as Hh.
  { intros d Hd Hin. unfold includes, hovered_is in *.
    apply bool_decide_eq_false_1 in Hin.
    rewrite (bool_decide_eq_false_2 (None = Some (set d))) by done.
    apply bool_decide_eq_false_2. intros [= ->]. by apply Hin, (Hsel d). }
  unfold render_scene.
  cbn [upsetMatrix selectedIntersections hoveredIntersection with_hoveredIntersection].
  rewrite !geometry_hovered.
  destruct (_ || _); [done |]. cbv zeta.
  f_equal. f_equal. f_equal. f_equal. f_equal.
  - apply list_fmap_ext. intros k [i d] Hd%indexed_lookup. f_equal.
    + rewrite <- !list_fmap_compose. apply list_fmap_ext. intros ? [j s] _.
      unfold compose. cbv beta iota. f_equal. cbn [cell_intersection].
      destruct (includes _ _) eqn:Hin; [done |]. by rewrite (Hh d Hd Hin).
    + rewrite <- !list_fmap_compose. apply list_fmap_ext. intros ? [j s] _.
      unfold compose. cbv beta iota. f_equal. cbn [cell_intersection cell_set].
      destruct (includes _ _) eqn:Hin; [done |]. by rewrite (Hh d Hd Hin).
  - f_equal. apply list_fmap_ext. intros k [i d] Hd%indexed_lookup. f_equal.
    destruct (includes _ _) eqn:Hin; [done |]. by rewrite (Hh d Hd Hin).
Qed.

End HoverProperties.

(** ** The names of the sets *)

Lemma split_pieces (sep : N) (s piece : jsstring) :
  piece ∈ split sep s -> sep ∉ piece.
Proof.
  revert piece. induction s as [| c s IH]; intros piece; simpl.
  - intros ->%list_elem_of_singleton. by apply not_elem_of_nil.
  - destruct (N.eqb_spec c sep) as [-> | Hne].
    + intros [-> | Hin]%elem_of_cons; [by apply not_elem_of_nil | by apply IH].
    + destruct (split sep s) as [| p ps] eqn:Hs.
      * intros ->%list_elem_of_singleton.
        apply not_elem_of_cons. split; [done | by apply not_elem_of_nil].
      * intros [-> | Hin]%elem_of_cons.
        -- apply not_elem_of_cons. split; [done |]. apply IH. by left.
        -- apply IH. by right.
Qed.

(** X24. No set name holds a comma: the sets of a model built by
    [addIntersection] calls are pieces of keys split on commas, and a name
    with a comma is in no intersection for [isSetInIntersection]. *)
Theorem getSets_without_comma (calls : list (jsstring * float)) :
  Forall (fun name => COMMA ∉ name) (getSets (addIntersections calls))
  /\ forall this name key,
       isSetInIntersection this name key = true -> COMMA ∉ name.
Proof.
  split.
  - apply Forall_forall. intros name Hin.
    destruct (addIntersections_sets calls) as [Hset _].
    apply (elem_of_list_to_set (C := gset jsstring)) in Hin.
    rewrite Hset in Hin. apply elem_of_components in Hin as (call & _ & Hname).
    by apply (split_pieces COMMA call.1).
  - intros this name key Hin. unfold isSetInIntersection, includes in Hin.
    apply bool_decide_eq_true_1 in Hin. by apply (split_pieces COMMA key).
Qed.

(** * Scenarios, witnesses and counterexamples *)

(** The scenarios of the specification. *)

Example scenario_A :
  parseUpsetMatrix (js "m.tsv")
    (onload (line_ "SetA" "120" ++ line_ "SetB" "150" ++ line_ "SetA,SetB" "45"))
  = Resolved {| data := {| sets := [js "SetA"; js "SetB"];
                           intersections := [ {| set := js "SetA"; value := 120 |};
                                              {| set := js "SetB"; value := 150 |};
                                              {| set := js "SetA,SetB"; value := 45 |} ] |};
                fileName := js "m.tsv"; status := 1 |}.
Proof. by vm_compute. Qed.

Example scenario_A_max :
  getMaxIntersectionValue
    {| sets := [js "SetA"; js "SetB"];
       intersections := [ {| set := js "SetA"; value := 120 |};
                          {| set := js "SetB"; value := 150 |};
                          {| set := js "SetA,SetB"; value := 45 |} ] |} = 150%float.
Proof. by vm_compute. Qed.

Example scenario_B :
  parseUpsetMatrix (js "m.tsv") (onload (js "#note" ++ [LF] ++ line_ "SetA" "10"))
  = Resolved {| data := {| sets := [js "SetA"];
                           intersections := [ {| set := js "SetA"; value := 10 |} ] |};
                fileName := js "m.tsv"; status := 1 |}.
Proof. by vm_compute. Qed.

Example scenario_D :
  parseUpsetMatrix (js "m.tsv") (onload (js "SetA" ++ [LF])) = Rejected FormatError.
Proof. by vm_compute. Qed.

Example scenario_E :
  parseUpsetMatrix (js "m.tsv") (onload [])
  = Resolved {| data := new_UpsetMatrixData; fileName := js "m.tsv"; status := 1 |}
  /\ render_scene linearScale sixPixels
       (new_UpsetPlot (dimensions example_plot) new_UpsetMatrixData) = None.
Proof. split; by vm_compute. Qed.

(** Hovering the second row of the example chart repaints it as a full
    render with that row hovered would. *)
Example hover_second_row :
  mouseover (render linearScale sixPixels example_plot)
    {| set := js "SetA"; value := 7 |}
  = render linearScale sixPixels
      (with_hoveredIntersection example_plot (Some (js "SetA"))).
Proof. by vm_compute. Qed.

Lemma parseUpsetMatrix_rejects_iff_malformed_witness :
  handleUpsetMatrixFileUpload
    {| data := example_model; fileName := js "old.tsv"; status := 1 |}
    (parseUpsetMatrix (js "m.tsv") (onload (js "SetA" ++ [LF])))
  = {| data := example_model; fileName := js "old.tsv"; status := -1 |}.
Proof.
  refine (proj2 (proj2 (parseUpsetMatrix_rejects_iff_malformed (js "m.tsv")
                          (js "SetA" ++ [LF]))) _ _).
  exists (js "SetA"). split; [by left |].
  repeat split; by vm_compute.
Defined.

Lemma addIntersection_sets_are_components_witness :
  getSets (addIntersection
             (addIntersections [(js "SetA", 120%float); (js "SetB", 150%float)])
             (js "SetA,SetB") 45)
  = [js "SetA"; js "SetB"].
Proof.
  refine (eq_trans
    (proj2 (proj2 (proj2 (addIntersection_sets_are_components
       [(js "SetA", 120%float); (js "SetB", 150%float)]))) (js "SetA,SetB") 45%float _) _).
  - intros name Hin. vm_compute in Hin. vm_compute.
    apply elem_of_cons in Hin as [-> | Hin]; [by left |].
    apply list_elem_of_singleton in Hin as ->. right; by left.
  - by vm_compute.
Defined.

Lemma parseUpsetMatrix_drops_non_integer_witness :
  parseUpsetMatrix (js "m.tsv")
    (onload (js "SetA" ++ [TAB] ++ js "1" ++ [LF] ++ js "SetB" ++ [TAB] ++ js "x2"
             ++ [LF] ++ js "SetC" ++ [TAB] ++ js "3"))
  = Resolved {| data := {| sets := [js "SetA"; js "SetC"];
                           intersections := [ {| set := js "SetA"; value := 1 |};
                                              {| set := js "SetC"; value := 3 |} ] |};
                fileName := js "m.tsv"; status := 1 |}.
Proof.
  refine (eq_trans
    (proj1 (proj2 (parseUpsetMatrix_drops_non_integer (js "m.tsv") _
       [js "SetA" ++ [TAB] ++ js "1"] [js "SetC" ++ [TAB] ++ js "3"]
       (js "SetB" ++ [TAB] ++ js "x2") (js "SetB") (js "x2") _ _ _))) _);
    vm_compute; reflexivity.
Defined.

Lemma parseUpsetMatrix_values_are_integers_witness :
  Forall (fun i => isNaN (value i) = false)
    [ {| set := js "SetA"; value := 120%float |}; {| set := js "SetB"; value := 7%float |} ].
Proof.
  refine (Forall_impl _ _ _
    (parseUpsetMatrix_values_are_integers (js "m.tsv")
       (js "SetA" ++ [TAB] ++ js "120" ++ [LF] ++ js "SetB" ++ [TAB] ++ js "7")
       {| data := {| sets := [js "SetA"; js "SetB"];
                     intersections := [ {| set := js "SetA"; value := 120%float |};
                                        {| set := js "SetB"; value := 7%float |} ] |};
          fileName := js "m.tsv"; status := 1 |} _) _).
  - vm_compute. reflexivity.
  - intros i H. exact (proj1 (proj2 H)).
Defined.

(** C4 as stated fails: a count with a minus sign is accepted, and the entry
    has a negative value. *)
Lemma parseUpsetMatrix_negative_value :
  parseUpsetMatrix (js "m.tsv") (onload (js "SetA" ++ [TAB] ++ js "-5" ++ [LF]))
  = Resolved {| data := {| sets := [js "SetA"];
                           intersections := [ {| set := js "SetA"; value := -5 |} ] |};
                fileName := js "m.tsv"; status := 1 |}
  /\ (0 <=? value {| set := js "SetA"; value := -5 |})%float = false.
Proof. split; by vm_compute. Qed.

Lemma getMaxIntersectionValue_is_maximum_witness :
  getMaxIntersectionValue
    {| sets := [js "SetA"; js "SetB"];
       intersections := [ {| set := js "SetA"; value := 120 |};
                          {| set := js "SetB"; value := 150 |};
                          {| set := js "SetA,SetB"; value := 45 |} ] |} = 150%float
  /\ Forall (fun i => (value i <=? 150)%float = true)
       [ {| set := js "SetA"; value := 120 |};
         {| set := js "SetB"; value := 150 |};
         {| set := js "SetA,SetB"; value := 45 |} ].
Proof.
  split; [by vm_compute |].
  refine (proj2 (proj1 (proj2 (getMaxIntersectionValue_is_maximum
    {| sets := [js "SetA"; js "SetB"];
       intersections := [ {| set := js "SetA"; value := 120 |};
                          {| set := js "SetB"; value := 150 |};
                          {| set := js "SetA,SetB"; value := 45 |} ] |})) _ _)).
  - discriminate.
  - repeat constructor.
Defined.

Lemma render_cell_sizes_witness :
  cell_width (geometry example_plot) = 45.625%float
  /\ (30 <? cell_height (geometry example_plot))%float = false.
Proof.
  split; [by vm_compute |].
  pose proof (render_cell_sizes linearScale sixPixels example_plot
                ltac:(discriminate) ltac:(discriminate)) as H.
  cbv zeta in H. exact (proj2 (proj2 (proj2 (proj2 (proj1 H))))).
Defined.

(** C6 as stated fails: in an svg of 100 by 30 the effective chart width is
    -30 and the height -10, and [render] draws the chart all the same. *)
Lemma render_draws_in_negative_area :
  width (geometry narrow_plot) = (-30)%float
  /\ height (geometry narrow_plot) = (-10)%float
  /\ getSets (upsetMatrix narrow_plot) <> []
  /\ getIntersections (upsetMatrix narrow_plot) <> []
  /\ (length <$> (children <$> render_scene linearScale sixPixels narrow_plot)) = Some 16
  /\ render_scene linearScale sixPixels
       (new_UpsetPlot (dimensions narrow_plot) new_UpsetMatrixData) = None.
Proof. repeat split; (discriminate || by vm_compute). Qed.

Lemma render_intersection_labels_witness :
  intersectionLabels (render_scene linearScale sixPixels example_plot)
  = [ (js "SetA,...", js "SetA,SetB,SetC,SetD"); (js "SetA", js "SetA") ].
Proof.
  refine (eq_trans
    (render_intersection_labels linearScale sixPixels example_plot _) _).
  - discriminate.
  - by vm_compute.
Defined.

(** C7 as stated fails: at 500 by 500 the left margin is 75 and the label
    font size 12, so that [floor(75 / (12 * 0.6)) - 2] is 8; the key
    [SetA,SetB,SetC,SetD], of 19 characters, is shown as [SetA,...], which
    keeps 5 of its characters and not the first 8. *)
Lemma intersection_label_keeps_fewer_characters :
  (Math_floor (Margin.left (margin (geometry example_plot))
               / (labelFontSize (geometry example_plot) * 0.6)) - 2)%float = 8%float
  /\ intersectionLabels (render_scene linearScale sixPixels example_plot)
     = [ (js "SetA,...", js "SetA,SetB,SetC,SetD"); (js "SetA", js "SetA") ]
  /\ take 8 (js "SetA,SetB,SetC,SetD") = js "SetA,Set"
  /\ forall ellipsis : jsstring, js "SetA,..." <> js "SetA,Set" ++ ellipsis.
Proof.
  split; [by vm_compute |]. split; [by vm_compute |]. split; [done |].
  intros ellipsis H. discriminate.
Qed.

Lemma render_skips_iff_model_empty_witness :
  (fun c => selector <$> children c) <$> render_scene linearScale sixPixels narrow_plot
  = Some ["rect"; "text.setLabel"; "text.setLabel"; "text.setLabel"; "text.setLabel";
          "g.gridRow"; "g.gridRow"; "rect.valueBar"; "rect.valueBar";
          "text.barLabel"; "text.barLabel"; "g.x-axis";
          "text.intersectionLabel"; "text.intersectionLabel";
          "rect.eventRect"; "rect.eventRect"]%string.
Proof.
  destruct (render_scene linearScale sixPixels narrow_plot) as [c |] eqn:Hc;
    [| by vm_compute in Hc].
  simpl. f_equal.
  pose proof (proj2 (proj2 (render_skips_iff_model_empty linearScale sixPixels
                              narrow_plot)) c Hc) as H.
  cbv zeta in H. exact (proj1 H).
Defined.

Lemma click_twice_restores_selection_witness :
  (list_to_set
     (selectedIntersections
        (click linearScale sixPixels
           (click linearScale sixPixels example_plot
              {| set := js "SetA"; value := 7 |}).1
           {| set := js "SetA"; value := 7 |}).1) : gset jsstring)
  = list_to_set (selectedIntersections example_plot).
Proof.
  exact (proj2 (proj2 (click_twice_restores_selection linearScale sixPixels
                         example_plot {| set := js "SetA"; value := 7 |}
                         {| set := js "SetA"; value := 7 |} eq_refl eq_refl))).
Defined.

(** * Instances of the further properties *)

Lemma example_text_parses :
  parseUpsetMatrix (js "m.tsv") (onload example_text) = Resolved example_file.
Proof. by vm_compute. Qed.

Lemma parseUpsetMatrix_model_witness :
  getIntersections (data example_file)
  = (fun call => {| set := call.1; value := call.2 |}) <$> entries example_text.
Proof.
  exact (proj1 (proj2 (parseUpsetMatrix_model (js "m.tsv") example_text example_file
                         example_text_parses))).
Defined.

Lemma parseUpsetMatrix_skips_line_witness :
  parseUpsetMatrix (js "m.tsv") (onload (line_ "SetA" "1" ++ js "#c" ++ [LF]))
  = Resolved {| data := {| sets := [js "SetA"];
                           intersections := [ {| set := js "SetA"; value := 1 |} ] |};
                fileName := js "m.tsv"; status := 1 |}.
Proof.
  refine (eq_trans
    (parseUpsetMatrix_skips_line (js "m.tsv") _
       [js "SetA" ++ [TAB] ++ js "1"] [[]] (js "#c") _ _) _);
    by vm_compute.
Defined.

Lemma parseUpsetMatrix_CRLF_witness :
  parseUpsetMatrix (js "m.tsv")
    (onload (js "SetA" ++ [TAB] ++ js "1" ++ [CR; LF] ++ js "SetB" ++ [TAB] ++ js "2"
             ++ [CR; LF]))
  = parseUpsetMatrix (js "m.tsv") (onload (line_ "SetA" "1" ++ line_ "SetB" "2")).
Proof.
  apply parseUpsetMatrix_CRLF. vm_compute.
  repeat constructor; (by right) || (by left).
Defined.

Lemma parseUpsetMatrix_sets_cover_witness :
  NoDup (getSets (data example_file))
  /\ (getSets (data example_file) = [] <-> getIntersections (data example_file) = []).
Proof.
  exact (proj2 (parseUpsetMatrix_sets_cover (js "m.tsv") example_text example_file
                  example_text_parses)).
Defined.

Lemma parseUpsetMatrix_max_witness :
  isNaN (getMaxIntersectionValue (data example_file)) = false.
Proof.
  refine (proj1 (parseUpsetMatrix_max (js "m.tsv") example_text example_file
                   example_text_parses _)).
  discriminate.
Defined.

Lemma render_labelFontSize_witness :
  (labelFontSize (geometry example_plot) <? 8)%float = false.
Proof.
  refine (proj2 (proj2 (render_labelFontSize example_plot)) _). by vm_compute.
Defined.

Lemma render_follows_model_witness :
  setLabelsOf <$> render_scene linearScale sixPixels example_plot
  = Some (getSets example_model).
Proof.
  destruct (render_scene linearScale sixPixels example_plot) as [c |] eqn:Hc;
    [| by vm_compute in Hc].
  simpl. f_equal.
  exact (proj1 (render_follows_model linearScale sixPixels example_plot c Hc)).
Defined.

Lemma render_event_surfaces_witness :
  (fun c => (eventRectsOf c).*1.*1) <$> render_scene linearScale sixPixels example_plot
  = rowsOf <$> render_scene linearScale sixPixels example_plot.
Proof.
  destruct (render_scene linearScale sixPixels example_plot) as [c |] eqn:Hc;
    [| by vm_compute in Hc].
  simpl. f_equal.
  rewrite (proj1 (render_event_surfaces linearScale sixPixels example_plot c Hc)).
  rewrite <- !list_fmap_compose. rewrite <- (list_fmap_id (rowsOf c)) at 2.
  apply list_fmap_ext. by intros ? [? ?] _.
Defined.

Lemma render_circles_show_membership_witness :
  match render_scene linearScale sixPixels example_plot with
  | Some c =>
      Forall (fun e => match e with
                       | g_gridRow _ _ _ circles =>
                           (fun ci => cell_set (circle_datum ci)) <$> circles
                           = getSets example_model
                       | _ => True
                       end) (children c)
  | None => False
  end.
Proof.
  destruct (render_scene linearScale sixPixels example_plot) as [c |] eqn:Hc;
    [| by vm_compute in Hc].
  apply Forall_forall. intros e He.
  destruct e as [| | d ty rects circles | | | | |]; try exact I.
  exact (proj1 (render_circles_show_membership linearScale sixPixels example_plot c
                  d ty rects circles Hc He)).
Defined.

Lemma click_toggles_membership_witness :
  js "SetA" ∈ selectedIntersections
    (click linearScale sixPixels example_plot {| set := js "SetA"; value := 7 |}).1.
Proof.
  refine (proj2 (click_toggles_membership linearScale sixPixels example_plot
                   {| set := js "SetA"; value := 7 |} (js "SetA") eq_refl) _).
  rewrite decide_True by done. intros Hin. inversion Hin.
Defined.

Lemma click_keeps_NoDup_witness :
  NoDup (selectedIntersections
           (click linearScale sixPixels example_plot
              {| set := js "SetA"; value := 7 |}).1).
Proof.
  apply click_keeps_NoDup. constructor.
Defined.

Lemma click_with_callback_witness :
  (click linearScale sixPixels (setOnIntersectionClick example_plot (callback 1))
     {| set := js "SetA"; value := 7 |}).2
  = Some (callback 1, js "SetA").
Proof.
  exact (proj2 (click_with_callback linearScale sixPixels
                  (setOnIntersectionClick example_plot (callback 1)) (callback 1) []
                  eq_refl) {| set := js "SetA"; value := 7 |}).
Defined.

Lemma mouseleave_undoes_mouseover_witness :
  mouseleave
    (mouseover (render linearScale sixPixels example_plot)
       {| set := js "SetA"; value := 7 |})
  = render linearScale sixPixels example_plot.
Proof.
  exact (mouseleave_undoes_mouseover linearScale sixPixels
           (render linearScale sixPixels example_plot)
           {| set := js "SetA"; value := 7 |} eq_refl eq_refl).
Defined.

Lemma addIntersection_max_witness :
  (getMaxIntersectionValue (data example_file)
   <=? getMaxIntersectionValue (addIntersection (data example_file) (js "SetC") 200))%float
  = true.
Proof.
  refine (proj1 (proj2 (addIntersection_max (data example_file) (js "SetC") 200%float
                          _ _ _))).
  - discriminate.
  - repeat constructor.
  - reflexivity.
Defined.

Lemma parseUpsetMatrix_keys_trimmed_witness :
  Forall (fun i => trim (set i) = set i) (getIntersections (data example_file)).
Proof.
  exact (parseUpsetMatrix_keys_trimmed (js "m.tsv") example_text example_file
           example_text_parses).
Defined.

Lemma parseUpsetMatrix_ignores_tail_witness :
  parseUpsetMatrix (js "m.tsv") (onload (js "SetA" ++ [TAB] ++ js "12.5" ++ [LF]))
  = parseUpsetMatrix (js "m.tsv") (onload (line_ "SetA" "12")).
Proof.
  refine (parseUpsetMatrix_ignores_tail (js "m.tsv") _ _ [] [[]]
            (js "SetA" ++ [TAB] ++ js "12") (js "5") 46 (js "SetA", 12%float)
            _ _ _ _ _); try by vm_compute.
  vm_compute. intros H.
  repeat (apply elem_of_cons in H as [H | H]; [discriminate |]).
  inversion H.
Defined.

Lemma render_hover_hidden_witness :
  render_scene linearScale sixPixels
    (with_hoveredIntersection example_plot (Some (js "SetZ")))
  = render_scene linearScale sixPixels (with_hoveredIntersection example_plot None).
Proof.
  apply render_hover_hidden. intros i Hi Hkey. exfalso. revert Hkey.
  vm_compute in Hi.
  repeat (apply elem_of_cons in Hi as [-> | Hi]; [by vm_compute |]).
  inversion Hi.
Defined.
